(** * Gauntlet session engine of kana-dojo

    A shallow embedding of the Gauntlet component's engine: queue
    construction ([generateQuestionQueue], [stabilizeQueueNoImmediateRepeats]),
    the per-answer transition ([submitAnswer], [advanceToNextQuestion],
    [ensureNextQuestionIsDifferent], [recordAnswerTime]) and the end-of-session
    accounting ([endGame]).

    Conventions of the embedding:
    - React state is one record, [State]; an event handler reads the state of
      the render it was created in and queues its writes.  A handler is a
      function from the rendered state to the next rendered state; writes of
      the form [setX(prev => ...)] read the pending value, plain reads see the
      rendered one.  The ref [lastAnswerTime] is read and written at once.
    - The two sources of nondeterminism, [random.integer] and [Date.now], are
      inputs of the transition.
    - [endGame] is asynchronous.  What it does up to [await saveSession(stats)]
      runs inside the answer's handler; what follows the [await], ending in
      [setPhase('results')], is a step of its own, [saveSettled], taken when
      the promise resolves and never taken when it does not.  Until then the
      phase is still playing and the answer screen is still rendered.  Saves
      left over from an earlier session are not followed into the next one,
      and a game that is cancelled ([handleCancel]) is not followed further.
    - Arrays are lists read with [!!] and written with [<[i:=x]>]; counters
      that only grow are [nat], lives and clock readings are [Z], ratios are
      [Q].
    - [DIFFICULTY_CONFIG] and [RepetitionCount] are declared in [./types],
      which is not among the sources at hand: the selected difficulty row and
      the repetition count are parameters of a session.
    - Presentation-only state (typed answer, option list, feedback flags,
      audio) is left out.
    - The answer screen, [ActiveGame], which hands its result to
      [submitAnswer], is embedded the same way: its state is [GameUi] and its
      handlers are functions; [String.prototype.trim] and the [checkAnswer]
      callback are parameters. *)

From stdpp Require Import base list strings gmap pretty.
From Stdlib Require Import ZArith QArith Lia PrimFloat Uint63.

Local Open Scope string_scope.
Local Open Scope nat_scope.

(** ** Items and queue entries *)

(** The fields of an item object that [getQuestionItemId] looks at, each
    already rendered by [String(...)]; [None] when the key is absent. *)
Record ItemObject := {
  obj_kana : option string;
  obj_kanjiChar : option string;
  obj_word : option string;
  obj_id : option string
}.

(** An item is an object or a primitive; a primitive is kept as its
    [String(item)] rendering. *)
Inductive Item :=
| ItemObj (o : ItemObject)
| ItemPrim (s : string).

Definition getQuestionItemId (item : Item) : string :=
  match item with
  | ItemObj o =>
      match obj_kana o with
      | Some k => k
      | None =>
          match obj_kanjiChar o with
          | Some k => k
          | None =>
              match obj_word o with
              | Some w => w
              | None =>
                  match obj_id o with
                  | Some i => i
                  | None => "[object Object]"
                  end
              end
          end
      end
  | ItemPrim s => s
  end.

Record GauntletQuestion := {
  q_item : Item;
  q_index : nat;
  q_repetitionNumber : nat
}.

Definition questionId (q : GauntletQuestion) : string :=
  getQuestionItemId (q_item q).

(** ** Array helpers *)

(** [[queue[i], queue[j]] = [queue[j], queue[i]]]: both reads happen first,
    then slot [i] and slot [j] are written in that order.  The call sites
    pass indices inside the array (the shuffle does when its draws are in
    range, see [validShuffle]), so the last branch is not reached. *)
Definition swap (queue : list GauntletQuestion) (i j : nat)
  : list GauntletQuestion :=
  match queue !! i, queue !! j with
  | Some a, Some b => <[j := a]> (<[i := b]> queue)
  | _, _ => queue
  end.

(** [Array.prototype.splice(pos, 0, x)]: a position past the end appends. *)
Definition splice_insert (pos : nat) (x : GauntletQuestion)
    (queue : list GauntletQuestion) : list GauntletQuestion :=
  take pos queue ++ x :: drop pos queue.

(** The inner search loops: the first index [j >= start] whose entry has an
    identity other than [currentId]; [None] stands for [swapIndex === -1]. *)
Fixpoint findDifferent (currentId : string) (l : list GauntletQuestion)
    (j : nat) : option nat :=
  match l with
  | [] => None
  | q :: l' =>
      if decide (questionId q = currentId)
      then findDifferent currentId l' (S j)
      else Some j
  end.

Definition findSwapIndex (queue : list GauntletQuestion) (start : nat)
    (currentId : string) : option nat :=
  findDifferent currentId (drop start queue) start.

(** ** Queue construction *)

(** One iteration of the loop of [stabilizeQueueNoImmediateRepeats]. *)
Definition stabilizeStep (queue : list GauntletQuestion) (i : nat)
  : list GauntletQuestion :=
  match queue !! i, queue !! (i + 1) with
  | Some cur, Some next =>
      let currentId := questionId cur in
      let nextId := questionId next in
      if decide (currentId = nextId) then
        match findSwapIndex queue (i + 2) currentId with
        | Some swapIndex => swap queue (i + 1) swapIndex
        | None => queue
        end
      else queue
  | _, _ => queue
  end.

(** [for (let i = 0; i < queue.length - 1; i++)]; the body keeps the length,
    so the bound is the length on entry. *)
Definition stabilizeQueueNoImmediateRepeats (queue : list GauntletQuestion)
  : list GauntletQuestion :=
  foldl stabilizeStep queue (seq 0 (length queue - 1)).

(** [items.forEach(item => for rep = 1..repetitions push {item, 0, rep})]. *)
Definition crossProduct (items : list Item) (repetitions : nat)
  : list GauntletQuestion :=
  flat_map
    (fun item =>
       map (fun rep =>
              {| q_item := item; q_index := 0; q_repetitionNumber := rep |})
           (seq 1 repetitions))
    items.

(** Fisher-Yates: [for (i = length - 1; i > 0; i--)] swap slot [i] with slot
    [draw i], the value [random.integer(0, i)] returned in that iteration. *)
Definition fisherYates (draw : nat -> nat) (queue : list GauntletQuestion)
  : list GauntletQuestion :=
  foldl (fun q i => swap q i (draw i)) queue
        (reverse (seq 1 (length queue - 1))).

Definition validShuffle (draw : nat -> nat) : Prop :=
  forall i, draw i <= i.

Definition setIndices (queue : list GauntletQuestion)
  : list GauntletQuestion :=
  imap (fun i q =>
          {| q_item := q_item q; q_index := i;
             q_repetitionNumber := q_repetitionNumber q |})
       queue.

Definition generateQuestionQueue (draw : nat -> nat) (items : list Item)
    (repetitions : nat) : list GauntletQuestion :=
  setIndices
    (stabilizeQueueNoImmediateRepeats
       (fisherYates draw (crossProduct items repetitions))).

(** [Math.max(5, Math.min(20, Math.ceil(totalQuestions * 0.1)))].  The
    ceiling of a tenth is taken on integers: [(n + 9) / 10]. *)
Definition ceilTenth (n : nat) : nat := (n + 9) / 10.

Definition calculateRegenThreshold (totalQuestions : nat) : nat :=
  Nat.max 5 (Nat.min 20 (ceilTenth totalQuestions)).

(** ** Session state *)

Inductive Phase := pregame | playing | results.

#[global] Instance Phase_eq_dec : EqDecision Phase.
Proof. solve_decision. Defined.

(** One entry of [characterStats]. *)
Record CharStat := { cs_correct : nat; cs_wrong : nat }.

(** The row of [DIFFICULTY_CONFIG] selected by the session's difficulty.  The
    table itself is declared in [./types], outside the sources at hand, so
    the selected row is a parameter of the session. *)
Record DifficultySettings := {
  d_lives : Z;
  d_regenerates : bool
}.

(** What the component receives and what the pregame screen fixes. *)
Record Setup := {
  items : list Item;
  repetitions : nat;
  diffConfig : DifficultySettings
}.

Definition totalQuestions (env : Setup) : nat :=
  length (items env) * repetitions env.

(** The session statistics built by [endGame] (the fields copied from the
    configuration for display, and the wall-clock stamp, are left out). *)
Module SessionStats.
Record t := {
  totalQuestions : nat;
  correctAnswers : nat;
  wrongAnswers : nat;
  accuracy : Q;
  bestStreak : nat;
  currentStreak : nat;
  startingLives : Z;
  livesRemaining : Z;
  livesLost : Z;
  livesRegenerated : nat;
  totalTimeMs : Z;
  averageTimePerQuestionMs : Q;
  fastestAnswerMs : Z;
  slowestAnswerMs : Z;
  completed : bool;
  questionsCompleted : nat;
  characterStats : gmap string CharStat;
  totalCharacters : nat;
  repetitionsPerChar : nat
}.
End SessionStats.

Record State := {
  phase : Phase;
  questionQueue : list GauntletQuestion;
  currentIndex : nat;
  lives : Z;
  maxLives : Z;
  correctSinceLastRegen : nat;
  regenThreshold : nat;
  correctAnswers : nat;
  wrongAnswers : nat;
  currentStreak : nat;
  bestStreak : nat;
  livesRegenerated : nat;
  characterStats : gmap string CharStat;
  startTime : Z;
  answerTimes : list Z;
  lastAnswerTime : Z;
  sessionStats : option SessionStats.t
}.

(** The state setters.  Each one replaces a single field. *)

Definition setPhase (v : Phase) (s : State) : State :=
  {| phase := v; questionQueue := questionQueue s;
     currentIndex := currentIndex s; lives := lives s;
     maxLives := maxLives s;
     correctSinceLastRegen := correctSinceLastRegen s;
     regenThreshold := regenThreshold s; correctAnswers := correctAnswers s;
     wrongAnswers := wrongAnswers s; currentStreak := currentStreak s;
     bestStreak := bestStreak s; livesRegenerated := livesRegenerated s;
     characterStats := characterStats s; startTime := startTime s;
     answerTimes := answerTimes s; lastAnswerTime := lastAnswerTime s;
     sessionStats := sessionStats s |}.

Definition setQuestionQueue (v : list GauntletQuestion) (s : State) : State :=
  {| phase := phase s; questionQueue := v; currentIndex := currentIndex s;
     lives := lives s; maxLives := maxLives s;
     correctSinceLastRegen := correctSinceLastRegen s;
     regenThreshold := regenThreshold s; correctAnswers := correctAnswers s;
     wrongAnswers := wrongAnswers s; currentStreak := currentStreak s;
     bestStreak := bestStreak s; livesRegenerated := livesRegenerated s;
     characterStats := characterStats s; startTime := startTime s;
     answerTimes := answerTimes s; lastAnswerTime := lastAnswerTime s;
     sessionStats := sessionStats s |}.

Definition setCurrentIndex (v : nat) (s : State) : State :=
  {| phase := phase s; questionQueue := questionQueue s; currentIndex := v;
     lives := lives s; maxLives := maxLives s;
     correctSinceLastRegen := correctSinceLastRegen s;
     regenThreshold := regenThreshold s; correctAnswers := correctAnswers s;
     wrongAnswers := wrongAnswers s; currentStreak := currentStreak s;
     bestStreak := bestStreak s; livesRegenerated := livesRegenerated s;
     characterStats := characterStats s; startTime := startTime s;
     answerTimes := answerTimes s; lastAnswerTime := lastAnswerTime s;
     sessionStats := sessionStats s |}.

Definition setLives (v : Z) (s : State) : State :=
  {| phase := phase s; questionQueue := questionQueue s;
     currentIndex := currentIndex s; lives := v; maxLives := maxLives s;
     correctSinceLastRegen := correctSinceLastRegen s;
     regenThreshold := regenThreshold s; correctAnswers := correctAnswers s;
     wrongAnswers := wrongAnswers s; currentStreak := currentStreak s;
     bestStreak := bestStreak s; livesRegenerated := livesRegenerated s;
     characterStats := characterStats s; startTime := startTime s;
     answerTimes := answerTimes s; lastAnswerTime := lastAnswerTime s;
     sessionStats := sessionStats s |}.

Definition setCorrectSinceLastRegen (v : nat) (s : State) : State :=
  {| phase := phase s; questionQueue := questionQueue s;
     currentIndex := currentIndex s; lives := lives s;
     maxLives := maxLives s; correctSinceLastRegen := v;
     regenThreshold := regenThreshold s; correctAnswers := correctAnswers s;
     wrongAnswers := wrongAnswers s; currentStreak := currentStreak s;
     bestStreak := bestStreak s; livesRegenerated := livesRegenerated s;
     characterStats := characterStats s; startTime := startTime s;
     answerTimes := answerTimes s; lastAnswerTime := lastAnswerTime s;
     sessionStats := sessionStats s |}.

Definition setCorrectAnswers (v : nat) (s : State) : State :=
  {| phase := phase s; questionQueue := questionQueue s;
     currentIndex := currentIndex s; lives := lives s;
     maxLives := maxLives s;
     correctSinceLastRegen := correctSinceLastRegen s;
     regenThreshold := regenThreshold s; correctAnswers := v;
     wrongAnswers := wrongAnswers s; currentStreak := currentStreak s;
     bestStreak := bestStreak s; livesRegenerated := livesRegenerated s;
     characterStats := characterStats s; startTime := startTime s;
     answerTimes := answerTimes s; lastAnswerTime := lastAnswerTime s;
     sessionStats := sessionStats s |}.

Definition setWrongAnswers (v : nat) (s : State) : State :=
  {| phase := phase s; questionQueue := questionQueue s;
     currentIndex := currentIndex s; lives := lives s;
     maxLives := maxLives s;
     correctSinceLastRegen := correctSinceLastRegen s;
     regenThreshold := regenThreshold s; correctAnswers := correctAnswers s;
     wrongAnswers := v; currentStreak := currentStreak s;
     bestStreak := bestStreak s; livesRegenerated := livesRegenerated s;
     characterStats := characterStats s; startTime := startTime s;
     answerTimes := answerTimes s; lastAnswerTime := lastAnswerTime s;
     sessionStats := sessionStats s |}.

Definition setCurrentStreak (v : nat) (s : State) : State :=
  {| phase := phase s; questionQueue := questionQueue s;
     currentIndex := currentIndex s; lives := lives s;
     maxLives := maxLives s;
     correctSinceLastRegen := correctSinceLastRegen s;
     regenThreshold := regenThreshold s; correctAnswers := correctAnswers s;
     wrongAnswers := wrongAnswers s; currentStreak := v;
     bestStreak := bestStreak s; livesRegenerated := livesRegenerated s;
     characterStats := characterStats s; startTime := startTime s;
     answerTimes := answerTimes s; lastAnswerTime := lastAnswerTime s;
     sessionStats := sessionStats s |}.

Definition setBestStreak (v : nat) (s : State) : State :=
  {| phase := phase s; questionQueue := questionQueue s;
     currentIndex := currentIndex s; lives := lives s;
     maxLives := maxLives s;
     correctSinceLastRegen := correctSinceLastRegen s;
     regenThreshold := regenThreshold s; correctAnswers := correctAnswers s;
     wrongAnswers := wrongAnswers s; currentStreak := currentStreak s;
     bestStreak := v; livesRegenerated := livesRegenerated s;
     characterStats := characterStats s; startTime := startTime s;
     answerTimes := answerTimes s; lastAnswerTime := lastAnswerTime s;
     sessionStats := sessionStats s |}.

Definition setLivesRegenerated (v : nat) (s : State) : State :=
  {| phase := phase s; questionQueue := questionQueue s;
     currentIndex := currentIndex s; lives := lives s;
     maxLives := maxLives s;
     correctSinceLastRegen := correctSinceLastRegen s;
     regenThreshold := regenThreshold s; correctAnswers := correctAnswers s;
     wrongAnswers := wrongAnswers s; currentStreak := currentStreak s;
     bestStreak := bestStreak s; livesRegenerated := v;
     characterStats := characterStats s; startTime := startTime s;
     answerTimes := answerTimes s; lastAnswerTime := lastAnswerTime s;
     sessionStats := sessionStats s |}.

Definition setCharacterStats (v : gmap string CharStat) (s : State) : State :=
  {| phase := phase s; questionQueue := questionQueue s;
     currentIndex := currentIndex s; lives := lives s;
     maxLives := maxLives s;
     correctSinceLastRegen := correctSinceLastRegen s;
     regenThreshold := regenThreshold s; correctAnswers := correctAnswers s;
     wrongAnswers := wrongAnswers s; currentStreak := currentStreak s;
     bestStreak := bestStreak s; livesRegenerated := livesRegenerated s;
     characterStats := v; startTime := startTime s;
     answerTimes := answerTimes s; lastAnswerTime := lastAnswerTime s;
     sessionStats := sessionStats s |}.

Definition setAnswerTimes (v : list Z) (s : State) : State :=
  {| phase := phase s; questionQueue := questionQueue s;
     currentIndex := currentIndex s; lives := lives s;
     maxLives := maxLives s;
     correctSinceLastRegen := correctSinceLastRegen s;
     regenThreshold := regenThreshold s; correctAnswers := correctAnswers s;
     wrongAnswers := wrongAnswers s; currentStreak := currentStreak s;
     bestStreak := bestStreak s; livesRegenerated := livesRegenerated s;
     characterStats := characterStats s; startTime := startTime s;
     answerTimes := v; lastAnswerTime := lastAnswerTime s;
     sessionStats := sessionStats s |}.

Definition setLastAnswerTime (v : Z) (s : State) : State :=
  {| phase := phase s; questionQueue := questionQueue s;
     currentIndex := currentIndex s; lives := lives s;
     maxLives := maxLives s;
     correctSinceLastRegen := correctSinceLastRegen s;
     regenThreshold := regenThreshold s; correctAnswers := correctAnswers s;
     wrongAnswers := wrongAnswers s; currentStreak := currentStreak s;
     bestStreak := bestStreak s; livesRegenerated := livesRegenerated s;
     characterStats := characterStats s; startTime := startTime s;
     answerTimes := answerTimes s; lastAnswerTime := v;
     sessionStats := sessionStats s |}.

Definition setSessionStats (v : option SessionStats.t) (s : State) : State :=
  {| phase := phase s; questionQueue := questionQueue s;
     currentIndex := currentIndex s; lives := lives s;
     maxLives := maxLives s;
     correctSinceLastRegen := correctSinceLastRegen s;
     regenThreshold := regenThreshold s; correctAnswers := correctAnswers s;
     wrongAnswers := wrongAnswers s; currentStreak := currentStreak s;
     bestStreak := bestStreak s; livesRegenerated := livesRegenerated s;
     characterStats := characterStats s; startTime := startTime s;
     answerTimes := answerTimes s; lastAnswerTime := lastAnswerTime s;
     sessionStats := v |}.

(** The values read from the outside world during one [submitAnswer]. *)
Record Oracle := {
  now : Z;      (* [Date.now()] in [recordAnswerTime] *)
  endNow : Z;   (* [Date.now()] in [endGame] *)
  rnd : nat     (* [random.integer(minOffset, maxOffset)] *)
}.

(** The state before the first start: the [useState] defaults. *)
Definition initialState : State :=
  {| phase := pregame; questionQueue := []; currentIndex := 0;
     lives := 3; maxLives := 3; correctSinceLastRegen := 0;
     regenThreshold := 10; correctAnswers := 0; wrongAnswers := 0;
     currentStreak := 0; bestStreak := 0; livesRegenerated := 0;
     characterStats := ∅; startTime := 0; answerTimes := [];
     lastAnswerTime := 0; sessionStats := None |}.

(** [handleStart]: every field but [sessionStats] is written. *)
Definition handleStart (env : Setup) (draw : nat -> nat) (startNow : Z)
    (s : State) : State :=
  let queue := generateQuestionQueue draw (items env) (repetitions env) in
  let threshold := calculateRegenThreshold (length queue) in
  {| phase := playing; questionQueue := queue; currentIndex := 0;
     lives := d_lives (diffConfig env); maxLives := d_lives (diffConfig env);
     correctSinceLastRegen := 0; regenThreshold := threshold;
     correctAnswers := 0; wrongAnswers := 0; currentStreak := 0;
     bestStreak := 0; livesRegenerated := 0; characterStats := ∅;
     startTime := startNow; answerTimes := [];
     lastAnswerTime := startNow; sessionStats := sessionStats s |}.

(** ** The answer transition *)

Definition ensureNextQuestionIsDifferent (queue : list GauntletQuestion)
    (answeredIndex : nat) : list GauntletQuestion :=
  let nextIndex := answeredIndex + 1 in
  if length queue <=? nextIndex then queue
  else
    match queue !! answeredIndex, queue !! nextIndex with
    | Some cur, Some next =>
        let currentId := questionId cur in
        let nextId := questionId next in
        if decide (currentId = nextId) then
          match findSwapIndex queue (nextIndex + 1) currentId with
          | None => queue
          | Some swapIndex => swap queue nextIndex swapIndex
          end
        else queue
    | _, _ => queue
    end.

Definition sumZ (l : list Z) : Z := foldl Z.add 0%Z l.

(** [Math.min(...l)] and [Math.max(...l)], used on non-empty lists only. *)
Definition minOf (l : list Z) : Z :=
  match l with [] => 0%Z | x :: l' => foldl Z.min x l' end.
Definition maxOf (l : list Z) : Z :=
  match l with [] => 0%Z | x :: l' => foldl Z.max x l' end.

Definition validTimes (times : list Z) : list Z :=
  filter (fun t => (0 < t)%Z) times.

Definition accuracyOf (correct wrong : nat) : Q :=
  if 0 <? correct + wrong
  then (inject_Z (Z.of_nat correct) / inject_Z (Z.of_nat (correct + wrong)))%Q
  else 0%Q.

(** [endGame], up to its [await saveSession(stats)].  [s] is the rendered
    state captured by the callback ([startTime], [answerTimes], [maxLives],
    [livesRegenerated], [characterStats]); the counters come in as arguments;
    [p] is the pending state the writes go to.  The only write before the
    [await] is [setSessionStats(stats)]. *)
Definition endGame (env : Setup) (o : Oracle) (s : State)
    (completed : bool) (actualLives : Z)
    (actualCorrectAnswers actualWrongAnswers actualQuestionsCompleted
       actualBestStreak actualCurrentStreak : nat)
    (p : State) : State :=
  let totalTimeMs := (endNow o - startTime s)%Z in
  let validAnswerTimes := validTimes (answerTimes s) in
  let stats :=
    {| SessionStats.totalQuestions := totalQuestions env;
       SessionStats.correctAnswers := actualCorrectAnswers;
       SessionStats.wrongAnswers := actualWrongAnswers;
       SessionStats.accuracy :=
         accuracyOf actualCorrectAnswers actualWrongAnswers;
       SessionStats.bestStreak := actualBestStreak;
       SessionStats.currentStreak := actualCurrentStreak;
       SessionStats.startingLives := maxLives s;
       SessionStats.livesRemaining := actualLives;
       SessionStats.livesLost :=
         (maxLives s - actualLives + Z.of_nat (livesRegenerated s))%Z;
       SessionStats.livesRegenerated := livesRegenerated s;
       SessionStats.totalTimeMs := totalTimeMs;
       SessionStats.averageTimePerQuestionMs :=
         if 0 <? length validAnswerTimes
         then (inject_Z (sumZ validAnswerTimes)
               / inject_Z (Z.of_nat (length validAnswerTimes)))%Q
         else 0%Q;
       SessionStats.fastestAnswerMs :=
         if 0 <? length validAnswerTimes then minOf validAnswerTimes
         else 0%Z;
       SessionStats.slowestAnswerMs :=
         if 0 <? length validAnswerTimes then maxOf validAnswerTimes
         else 0%Z;
       SessionStats.completed := completed;
       SessionStats.questionsCompleted := actualQuestionsCompleted;
       SessionStats.characterStats := characterStats s;
       SessionStats.totalCharacters := length (items env);
       SessionStats.repetitionsPerChar := repetitions env |} in
  setSessionStats (Some stats) p.

(** [endGame], after the [await]: [setIsNewBest] and [recordGauntletRun],
    which touch nothing of the state kept here, and [setPhase('results')]. *)
Definition saveSettled (s : State) : State := setPhase results s.

(** [recordAnswerTime]: the ref is read and written immediately; the list is
    extended through a functional update. *)
Definition recordAnswerTime (o : Oracle) (p : State) : State :=
  let p :=
    if (0 <? lastAnswerTime p)%Z then
      let timeTaken := (now o - lastAnswerTime p)%Z in
      if (0 <? timeTaken)%Z
      then setAnswerTimes (answerTimes p ++ [timeTaken]) p
      else p
    else p in
  setLastAnswerTime (now o) p.

(** The position offset of the re-queued copy. *)
Definition minOffsetOf (remainingLength : nat) : nat :=
  if 1 <? remainingLength then 2 else 1.
Definition maxOffsetOf (remainingLength : nat) : nat :=
  Nat.max (minOffsetOf remainingLength) (Nat.min remainingLength 5).

(** When [random.integer(minOffset, maxOffset)] is called, that is, when
    entries remain after the current one, the draw lies in its range. *)
Definition validDraw (s : State) (o : Oracle) : Prop :=
  let remainingLength := length (questionQueue s) - (currentIndex s + 1) in
  0 < remainingLength ->
  minOffsetOf remainingLength <= rnd o <= maxOffsetOf remainingLength.

Definition requeue (env : Setup) (o : Oracle) (s : State)
  : list GauntletQuestion :=
  let maxQueueSize := totalQuestions env * 3 in
  let prevQueue := questionQueue s in
  if length prevQueue <? maxQueueSize then
    match prevQueue !! currentIndex s with
    | Some failedQuestion =>
        let remainingLength := length prevQueue - (currentIndex s + 1) in
        let minOffset := minOffsetOf remainingLength in
        let maxOffset := maxOffsetOf remainingLength in
        let insertOffset := if 0 <? remainingLength then rnd o else 1 in
        let insertPos := currentIndex s + insertOffset in
        splice_insert insertPos failedQuestion prevQueue
    | None => prevQueue
    end
  else prevQueue.

Definition advanceToNextQuestion (env : Setup) (o : Oracle) (s : State)
    (newLives : Z) (wasCorrect : bool)
    (newCorrectAnswers newWrongAnswers questionsCompleted
       newBestStreak newCurrentStreak : nat)
    (p : State) : State :=
  if (newLives <=? 0)%Z then
    endGame env o s false newLives newCorrectAnswers newWrongAnswers
            questionsCompleted newBestStreak newCurrentStreak p
  else if wasCorrect then
    if totalQuestions env <=? newCorrectAnswers then
      endGame env o s true newLives newCorrectAnswers newWrongAnswers
              questionsCompleted newBestStreak newCurrentStreak p
    else
      let nextIndex := currentIndex s + 1 in
      let stabilizedQueue :=
        ensureNextQuestionIsDifferent (questionQueue s) (currentIndex s) in
      let p := setQuestionQueue stabilizedQueue p in
      setCurrentIndex nextIndex p
  else
    let newQueue := requeue env o s in
    let stabilizedQueue :=
      ensureNextQuestionIsDifferent newQueue (currentIndex s) in
    let p := setQuestionQueue stabilizedQueue p in
    let nextIndex := currentIndex s + 1 in
    setCurrentIndex nextIndex p.

Definition statOf (m : gmap string CharStat) (charId : string) : CharStat :=
  default {| cs_correct := 0; cs_wrong := 0 |} (m !! charId).

Definition submitAnswer (env : Setup) (isCorrect : bool) (o : Oracle)
    (s : State) : State :=
  match questionQueue s !! currentIndex s with
  | None => s
  | Some currentQuestion =>
      let p := recordAnswerTime o s in
      if isCorrect then
        let newCurrentStreak := currentStreak s + 1 in
        let newBestStreak := Nat.max (bestStreak s) newCurrentStreak in
        let p := setCorrectAnswers (correctAnswers p + 1) p in
        let p := setCurrentStreak newCurrentStreak p in
        let p := setBestStreak newBestStreak p in
        let charId := getQuestionItemId (q_item currentQuestion) in
        let p :=
          setCharacterStats
            (<[charId :=
                 {| cs_correct := cs_correct (statOf (characterStats p) charId) + 1;
                    cs_wrong := cs_wrong (statOf (characterStats p) charId) |}]>
               (characterStats p)) p in
        let newCorrectAnswers := correctAnswers s + 1 in
        let questionsCompleted := currentIndex s + 1 in
        let canRegen := d_regenerates (diffConfig env) in
        let p :=
          if canRegen && (lives s <? maxLives s)%Z then
            let newCorrectSinceRegen := correctSinceLastRegen s + 1 in
            if regenThreshold s <=? newCorrectSinceRegen then
              let p := setLives (Z.min (lives p + 1) (maxLives s)) p in
              let p := setCorrectSinceLastRegen 0 p in
              setLivesRegenerated (livesRegenerated p + 1) p
            else setCorrectSinceLastRegen newCorrectSinceRegen p
          else p in
        advanceToNextQuestion env o s (lives s) true newCorrectAnswers
          (wrongAnswers s) questionsCompleted newBestStreak newCurrentStreak p
      else
        let p := setWrongAnswers (wrongAnswers p + 1) p in
        let p := setCurrentStreak 0 p in
        let p := setCorrectSinceLastRegen 0 p in
        let charId := getQuestionItemId (q_item currentQuestion) in
        let p :=
          setCharacterStats
            (<[charId :=
                 {| cs_correct := cs_correct (statOf (characterStats p) charId);
                    cs_wrong := cs_wrong (statOf (characterStats p) charId) + 1 |}]>
               (characterStats p)) p in
        let newLives := (lives s - 1)%Z in
        let newWrongAnswers := wrongAnswers s + 1 in
        let questionsCompletedOnWrong := currentIndex s + 1 in
        let p := setLives newLives p in
        advanceToNextQuestion env o s newLives false (correctAnswers s)
          newWrongAnswers questionsCompletedOnWrong (bestStreak s) 0 p
  end.

(** ** What the component renders *)

Inductive GauntletGameMode := PickMode | TypeMode.

(** The game mode in force and which optional callbacks the configuration
    supplies. *)
Record Collaborators := {
  gameMode : GauntletGameMode;
  hasGetCorrectOption : bool;
  hasCheckAnswer : bool
}.

Inductive Screen := EmptyState | PreGameScreen | ResultsScreen | ActiveGame.

(** The chain of early returns at the end of the component. *)
Definition renderScreen (env : Setup) (c : Collaborators) (s : State)
  : Screen :=
  if decide (length (items env) = 0) then EmptyState
  else if decide (phase s = pregame) then PreGameScreen
  else if bool_decide (phase s = results) && bool_decide (is_Some (sessionStats s))
  then ResultsScreen
  else
    match gameMode c with
    | PickMode =>
        if negb (hasGetCorrectOption c) then EmptyState else ActiveGame
    | TypeMode =>
        if negb (hasCheckAnswer c) then EmptyState else ActiveGame
    end.

(** ** Sessions *)

(** The answer calls [endGame]: no life is handed on, or the answer is
    correct and meets the target. *)
Definition terminates (env : Setup) (isCorrect : bool) (s : State) : bool :=
  if isCorrect
  then (lives s <=? 0)%Z || (totalQuestions env <=? correctAnswers s + 1)
  else (lives s - 1 <=? 0)%Z.

(** The component renders the answer screen, [ActiveGame], for the callbacks
    of some configuration. *)
Definition answerScreenShown (env : Setup) (s : State) : Prop :=
  exists c, renderScreen env c s = ActiveGame.

(** A session is a start followed by answers and by late halves of [endGame].
    The component renders the empty state, and neither start button, when
    there are no items.  An answer is handed in by the answer screen, which
    needs to be rendered and renders nothing without a current question;
    [random.integer] is consulted on wrong answers.

    An answer that calls [endGame] moves neither the index nor the queue, so
    the question key stays what it was: the answer screen is not reset, keeps
    the result it checked, and its action button hands that same result in
    again for as long as the screen is up.  [held] is that result, [None]
    before any answer has called [endGame].  The late half of [endGame] can
    run once the first half has. *)
Inductive session (env : Setup) : option bool -> State -> Prop :=
| session_start (draw : nat -> nat) (startNow : Z) (s0 : State) :
    items env <> [] ->
    validShuffle draw ->
    session env None (handleStart env draw startNow s0)
| session_submit (held : option bool) (isCorrect : bool) (o : Oracle)
      (s : State) (q : GauntletQuestion) :
    session env held s ->
    answerScreenShown env s ->
    questionQueue s !! currentIndex s = Some q ->
    (isCorrect = false -> validDraw s o) ->
    (forall kept, held = Some kept -> isCorrect = kept) ->
    session env (if terminates env isCorrect s then Some isCorrect else held)
            (submitAnswer env isCorrect o s)
| session_settle (kept : bool) (s : State) :
    session env (Some kept) s ->
    session env (Some kept) (saveSettled s).

(** The states a session passes through. *)
Definition reachable (env : Setup) (s : State) : Prop :=
  exists held, session env held s.

(** A primitive item, as in the samples below. *)
Definition prim (s : string) : Item := ItemPrim s.

(** ** Vocabulary of the properties *)

Definition repeatAt (queue : list GauntletQuestion) (i : nat) : Prop :=
  exists a b,
    queue !! i = Some a /\ queue !! (i + 1) = Some b /\
    questionId a = questionId b.

Definition constantFrom (queue : list GauntletQuestion) (i : nat)
    (c : string) : Prop :=
  forall j e, i <= j -> queue !! j = Some e -> questionId e = c.

(** The pairs [(i, i + 1)] with [i < k] are settled: where one repeats, the
    whole rest of the queue is that item. *)
Definition settledBelow (k : nat) (queue : list GauntletQuestion) : Prop :=
  forall i a b,
    i < k -> queue !! i = Some a -> queue !! (i + 1) = Some b ->
    questionId a = questionId b -> constantFrom queue i (questionId a).

(** A correct answer counts towards regeneration. *)
Definition regenCounts (env : Setup) (s : State) : bool :=
  d_regenerates (diffConfig env) && (lives s <? maxLives s)%Z.

(** A correct answer restores a life. *)
Definition regenFires (env : Setup) (s : State) : bool :=
  regenCounts env s && (regenThreshold s <=? correctSinceLastRegen s + 1).

(** The lives [submitAnswer] hands to [advanceToNextQuestion]: one less on a
    wrong answer; on a correct one those of the rendered state, before any
    regeneration by that answer. *)
Definition livesHandedOn (isCorrect : bool) (s : State) : Z :=
  if isCorrect then lives s else (lives s - 1)%Z.

(** The statistics are those of the counters as they stand. *)
Definition statsInStep (s : State) : Prop :=
  exists st,
    sessionStats s = Some st /\
    SessionStats.correctAnswers st = correctAnswers s /\
    SessionStats.wrongAnswers st = wrongAnswers s /\
    SessionStats.accuracy st
      = accuracyOf (correctAnswers s) (wrongAnswers s).

(** What holds in every state of a session, whatever the difficulty row: the
    pre-game screen is behind; the results are shown only after an answer
    has called [endGame]; from then on the held result, handed in again,
    calls [endGame] again, and the statistics are in step with the
    counters. *)
Definition shapeInv (env : Setup) (held : option bool) (s : State) : Prop :=
  phase s <> pregame /\
  (phase s = results -> is_Some held) /\
  match held with
  | None => (1 <= lives s)%Z \/ (maxLives s <= lives s)%Z
  | Some kept =>
      (if kept
       then totalQuestions env <= correctAnswers s \/
            ((lives s <= 0)%Z /\ (maxLives s <= lives s)%Z)
       else (lives s <= 0)%Z) /\
      statsInStep s
  end.

(** What holds of the lives and of the regeneration counters in every state
    of a session: the lives never pass the starting ones; they are the
    starting ones minus the losses plus the regenerations; and each
    regeneration used up a full threshold of correct answers. *)
Definition livesInv (env : Setup) (s : State) : Prop :=
  maxLives s = d_lives (diffConfig env) /\
  (lives s <= maxLives s)%Z /\
  lives s = (d_lives (diffConfig env) - Z.of_nat (wrongAnswers s)
             + Z.of_nat (livesRegenerated s))%Z /\
  livesRegenerated s * regenThreshold s + correctSinceLastRegen s
    <= correctAnswers s /\
  regenThreshold s = calculateRegenThreshold (totalQuestions env).

(** Before any answer has called [endGame]: a life is left; the target has
    not been met; every answer moved the index by one; and the queue grew by
    one per wrong answer up to the cap. *)
Definition progressInv (env : Setup) (s : State) : Prop :=
  phase s = playing /\
  (1 <= lives s)%Z /\
  correctAnswers s < totalQuestions env /\
  currentIndex s = correctAnswers s + wrongAnswers s /\
  length (questionQueue s)
    = Nat.min (totalQuestions env + wrongAnswers s) (3 * totalQuestions env).

(** After an answer has called [endGame], with at least one starting life:
    the session was completed, with a life in hand, or it was lost, short of
    the target and with no life left; the result says which. *)
Definition endedInv (env : Setup) (kept : bool) (s : State) : Prop :=
  (if kept
   then totalQuestions env <= correctAnswers s /\ (1 <= lives s)%Z
   else correctAnswers s < totalQuestions env /\ (lives s <= 0)%Z) /\
  SessionStats.completed <$> sessionStats s = Some kept.

(** Consecutive correct answers. *)
Definition correctRun (env : Setup) (os : list Oracle) (s : State) : State :=
  foldl (fun s o => submitAnswer env true o s) s os.

(** The number of identities among the items. *)
Definition distinctIds (items : list Item) : nat :=
  length (remove_dups (map getQuestionItemId items)).

(** ** The tenth in binary64 *)

(** [totalQuestions * 0.1] as the source computes it: the nearest double of
    a tenth, [0x1.999999999999ap-4], times the integer. *)
Definition tenthBinary64 (n : nat) : float :=
  PrimFloat.mul (PrimFloat.of_uint63 (Uint63.of_Z (Z.of_nat n)))
                0x1.999999999999ap-4%float.

(** [Math.ceil(x) = k], for an integer [k >= 0]: [k - 1 < x <= k]. *)
Definition ceilIs (x : float) (k : nat) : bool :=
  PrimFloat.leb x (PrimFloat.of_uint63 (Uint63.of_Z (Z.of_nat k)))
  && PrimFloat.ltb
       (PrimFloat.sub (PrimFloat.of_uint63 (Uint63.of_Z (Z.of_nat k)))
                      1%float)
       x.

(** ** Sample sessions *)

Definition orc (t : Z) (r : nat) : Oracle :=
  {| now := t; endNow := t; rnd := r |}.

Definition noShuffle : nat -> nat := fun i => i.

Definition normalDifficulty : DifficultySettings :=
  {| d_lives := 3; d_regenerates := true |}.

(** Three items, to be repeated three times each. *)
Definition itemsABC : list Item := [prim "a"; prim "b"; prim "c"].

(** Two items, one repetition, three lives: a correct answer, a wrong one on
    the last entry, a correct one, and the save resolved. *)
Definition envAB : Setup :=
  {| items := [prim "a"; prim "b"]; repetitions := 1;
     diffConfig := normalDifficulty |}.

Definition sAB0 : State := handleStart envAB noShuffle 1000 initialState.
Definition sAB1 : State := submitAnswer envAB true (orc 1500 1) sAB0.
Definition sAB2 : State := submitAnswer envAB false (orc 1700 1) sAB1.
Definition sAB3 : State := submitAnswer envAB true (orc 1900 1) sAB2.
Definition sABend : State := saveSettled sAB3.

(** Ten items, ten repetitions each: a hundred questions; one wrong answer
    first, then ten correct ones. *)
Definition env100 : Setup :=
  {| items := map prim ["a"; "b"; "c"; "d"; "e"; "f"; "g"; "h"; "i"; "j"];
     repetitions := 10; diffConfig := normalDifficulty |}.

Definition s100 : State :=
  submitAnswer env100 false (orc 1500 2)
    (handleStart env100 noShuffle 1000 initialState).

Definition tenAnswers : list Oracle :=
  map (fun k => orc (2000 + Z.of_nat k) 0) (seq 0 10).

(** Two items and a single life: a wrong answer, and the same result handed
    in again before the save has settled. *)
Definition envOne : Setup :=
  {| items := [prim "a"; prim "b"]; repetitions := 1;
     diffConfig := {| d_lives := 1; d_regenerates := false |} |}.

Definition sOne0 : State := handleStart envOne noShuffle 1000 initialState.
Definition sOne1 : State := submitAnswer envOne false (orc 1500 1) sOne0.
Definition sOne2 : State := submitAnswer envOne false (orc 1600 1) sOne1.




(** ** Per-item tallies *)

(** The sum of the per-item tallies. *)
Definition tallyCorrect (m : gmap string CharStat) : nat :=
  map_fold (fun _ st acc => cs_correct st + acc) 0 m.
Definition tallyWrong (m : gmap string CharStat) : nat :=
  map_fold (fun _ st acc => cs_wrong st + acc) 0 m.

(** [`${getItemId(currentQuestion.item)}-${currentQuestion.index}`], or the
    empty string without a current question. *)
Definition questionKey (s : State) : string :=
  match questionQueue s !! currentIndex s with
  | Some q => questionId q +:+ "-" +:+ pretty (q_index q)
  | None => ""
  end.

(** ** The answer screen *)

Inductive BottomBarState := barCheck | barCorrect | barWrong.

Record CheckedResult := {
  selectedOption : string;
  resultIsCorrect : bool
}.

(** The internal state of [ActiveGame]. *)
Record GameUi := {
  placedTiles : list string;
  bottomBarState : BottomBarState;
  isChecking : bool;
  isCelebrating : bool;
  checkedResult : option CheckedResult
}.

(** What [ActiveGame] is handed for the current question: whether there is
    one, the mode, the memoized correct option, the text typed so far, and
    [checkAnswer] applied to the question when the callback is supplied. *)
Record GameProps := {
  hasQuestion : bool;
  isTypeMode : bool;
  correctAnswer : string;
  userAnswer : string;
  checkAnswer : option (string -> bool)
}.

(** The state set by the effect that runs when the question key changes. *)
Definition resetUi : GameUi :=
  {| placedTiles := []; bottomBarState := barCheck; isChecking := false;
     isCelebrating := false; checkedResult := None |}.

(** The effect depends on the question key (the other dependencies do not
    change during a session): it runs after a render with a new key. *)
Definition afterRender (oldKey newKey : string) (ui : GameUi) : GameUi :=
  if decide (oldKey = newKey) then ui else resetUi.

Definition handleTileClick (char : string) (ui : GameUi) : GameUi :=
  if isChecking ui then ui
  else
    {| placedTiles :=
         if bool_decide (char ∈ placedTiles ui)
         then filter (fun c => c <> char) (placedTiles ui)
         else placedTiles ui ++ [char];
       bottomBarState := bottomBarState ui; isChecking := isChecking ui;
       isCelebrating := isCelebrating ui;
       checkedResult := checkedResult ui |}.

(** [handleCheck]; [trim] stands for [String.prototype.trim]. *)
Definition handleCheck (trim : string -> string) (p : GameProps)
    (ui : GameUi) : GameUi :=
  if negb (hasQuestion p) then ui
  else if isTypeMode p then
    let trimmed := trim (userAnswer p) in
    if decide (trimmed = "") then ui
    else
      let isCorrect :=
        match checkAnswer p with
        | Some check => check trimmed
        | None => false
        end in
      {| placedTiles := placedTiles ui;
         bottomBarState := if isCorrect then barCorrect else barWrong;
         isChecking := true;
         isCelebrating := if isCorrect then true else isCelebrating ui;
         checkedResult :=
           Some {| selectedOption := trimmed;
                   resultIsCorrect := isCorrect |} |}
  else if decide (length (placedTiles ui) = 0) then ui
  else
    let isCorrect :=
      bool_decide (length (placedTiles ui) = 1)
      && bool_decide (placedTiles ui !! 0 = Some (correctAnswer p)) in
    {| placedTiles := placedTiles ui;
       bottomBarState := if isCorrect then barCorrect else barWrong;
       isChecking := true;
       isCelebrating := if isCorrect then true else isCelebrating ui;
       checkedResult :=
         Some {| selectedOption := default "" (placedTiles ui !! 0);
                 resultIsCorrect := isCorrect |} |}.

(** [handleContinue]: the result handed to [onSubmit], if any. *)
Definition handleContinue (ui : GameUi) : option CheckedResult :=
  checkedResult ui.

Inductive UiEvent := ClickTile (char : string) | ClickAction.

(** One event on the answer screen: the next state and what is submitted.
    The action button continues once feedback is shown and checks before. *)
Definition uiStep (trim : string -> string) (p : GameProps) (ev : UiEvent)
    (ui : GameUi) : GameUi * option CheckedResult :=
  match ev with
  | ClickTile char => (handleTileClick char ui, None)
  | ClickAction =>
      match bottomBarState ui with
      | barCheck => (handleCheck trim p ui, None)
      | barCorrect | barWrong => (ui, handleContinue ui)
      end
  end.

(** The states of the answer screen while one question is shown. *)
Inductive uiReachable (trim : string -> string) (p : GameProps)
  : GameUi -> Prop :=
| ui_reset : uiReachable trim p resetUi
| ui_step (ev : UiEvent) (ui : GameUi) :
    uiReachable trim p ui -> uiReachable trim p (uiStep trim p ev ui).1.

Definition modeSupported (c : Collaborators) : bool :=
  match gameMode c with
  | PickMode => hasGetCorrectOption c
  | TypeMode => hasCheckAnswer c
  end.

(** What holds of the answer screen while a question is shown: no tile is
    placed twice, and feedback, the checking flag and the kept result go
    together. *)
Definition uiInv (ui : GameUi) : Prop :=
  NoDup (placedTiles ui) /\
  match checkedResult ui with
  | None => bottomBarState ui = barCheck /\ isChecking ui = false
  | Some r =>
      isChecking ui = true /\
      bottomBarState ui
      = if resultIsCorrect r then barCorrect else barWrong
  end.

(** ** Samples for the answer screen *)

(** The second entry of the two-item session. *)
Definition entryB : GauntletQuestion :=
  {| q_item := prim "b"; q_index := 1; q_repetitionNumber := 1 |}.

Definition pickCollaborators : Collaborators :=
  {| gameMode := PickMode; hasGetCorrectOption := true;
     hasCheckAnswer := false |}.

(** A question in Pick mode whose correct option is [a]. *)
Definition pickProps : GameProps :=
  {| hasQuestion := true; isTypeMode := false; correctAnswer := "a";
     userAnswer := ""; checkAnswer := None |}.

Definition sameText : string -> string := fun t => t.

(** The wrong tile placed, then checked. *)
Definition uiPlacedB : GameUi :=
  (uiStep sameText pickProps (ClickTile "b") resetUi).1.
Definition uiCheckedB : GameUi :=
  (uiStep sameText pickProps ClickAction uiPlacedB).1.

(** * Properties *)

(** ** Small runs *)

Example getQuestionItemId_kana :
  getQuestionItemId
    (ItemObj {| obj_kana := Some "ka"; obj_kanjiChar := None;
                obj_word := Some "w"; obj_id := Some "7" |}) = "ka".
Proof. reflexivity. Qed.

Example calculateRegenThreshold_samples :
  map calculateRegenThreshold [1; 50; 51; 100; 200; 1000]
  = [5; 5; 6; 10; 20; 20].
Proof. reflexivity. Qed.

Example stabilize_two_pairs :
  map questionId
    (stabilizeQueueNoImmediateRepeats
       (crossProduct [prim "a"; prim "b"] 2))
  = ["a"; "b"; "a"; "b"].
Proof. vm_compute. reflexivity. Qed.

Example requeue_after_wrong_first_answer :
  map questionId
    (questionQueue (submitAnswer envAB false (orc 1500 1) sAB0))
  = ["a"; "b"; "a"].
Proof. vm_compute. reflexivity. Qed.

(** ** Arrays *)

Lemma length_swap queue i j : length (swap queue i j) = length queue.
Proof.
  unfold swap. repeat case_match; by rewrite ?length_insert.
Qed.

Lemma swap_lookup queue i j k :
  i < length queue -> j < length queue ->
  swap queue i j !! k =
    if decide (k = j) then queue !! i
    else if decide (k = i) then queue !! j
    else queue !! k.
Proof.
  intros Hi Hj. unfold swap.
  destruct (lookup_lt_is_Some_2 queue i Hi) as [a Ha].
  destruct (lookup_lt_is_Some_2 queue j Hj) as [b Hb].
  rewrite Ha, Hb.
  destruct (decide (k = j)) as [->|Hkj].
  - rewrite list_lookup_insert_eq; [done | by rewrite length_insert].
  - rewrite list_lookup_insert_ne by done.
    destruct (decide (k = i)) as [->|Hki].
    + by rewrite list_lookup_insert_eq.
    + by rewrite list_lookup_insert_ne.
Qed.

Lemma length_splice_insert pos x queue :
  length (splice_insert pos x queue) = S (length queue).
Proof.
  unfold splice_insert.
  rewrite length_app, length_cons, length_take, length_drop. lia.
Qed.

Lemma splice_insert_lookup_lt pos x queue k :
  k < pos -> k < length queue ->
  splice_insert pos x queue !! k = queue !! k.
Proof.
  intros Hk Hlt. unfold splice_insert.
  rewrite lookup_app_l by (rewrite length_take; lia).
  by rewrite lookup_take_lt.
Qed.

Lemma findDifferent_Some currentId l j n :
  findDifferent currentId l j = Some n ->
  j <= n /\
  (exists e, l !! (n - j) = Some e /\ questionId e <> currentId) /\
  (forall k e, k < n - j -> l !! k = Some e -> questionId e = currentId).
Proof.
  revert j. induction l as [|q l IH]; intros j; simpl; [done|].
  case_decide as Hq.
  - intros Hf. destruct (IH _ Hf) as (Hle & (e & He & Hne) & Hall).
    split; [lia|]. split.
    + exists e. split; [|done].
      replace (n - j) with (S (n - S j)) by lia. done.
    + intros k e' Hk Hl. destruct k as [|k]; simpl in Hl.
      * by simplify_eq.
      * apply (Hall k); [lia | done].
  - intros [= <-]. split; [lia|]. rewrite Nat.sub_diag. split.
    + by exists q.
    + intros k e Hk. lia.
Qed.

Lemma findDifferent_None currentId l j :
  findDifferent currentId l j = None ->
  forall e, e ∈ l -> questionId e = currentId.
Proof.
  revert j. induction l as [|q l IH]; intros j; simpl.
  - intros _ e He. by apply elem_of_nil in He.
  - case_decide as Hq; [|done]. intros Hf e He.
    apply elem_of_cons in He as [->|He]; [done|]. by eapply IH.
Qed.

(** A successful search returns an index inside the array, at or after the
    start, whose entry differs; everything between is the repeated item. *)
Lemma findSwapIndex_Some queue start currentId n :
  findSwapIndex queue start currentId = Some n ->
  start <= n /\ n < length queue /\
  exists e, queue !! n = Some e /\ questionId e <> currentId.
Proof.
  unfold findSwapIndex. intros Hf.
  destruct (findDifferent_Some _ _ _ _ Hf) as (Hle & (e & He & Hne) & _).
  rewrite lookup_drop in He.
  replace (start + (n - start)) with n in He by lia.
  split; [done|]. split; [by eapply lookup_lt_Some|]. by exists e.
Qed.

Lemma findSwapIndex_None queue start currentId :
  findSwapIndex queue start currentId = None ->
  forall k e, start <= k -> queue !! k = Some e -> questionId e = currentId.
Proof.
  unfold findSwapIndex. intros Hf k e Hk He.
  eapply findDifferent_None; [done|].
  apply list_elem_of_lookup. exists (k - start).
  rewrite lookup_drop. by replace (start + (k - start)) with k by lia.
Qed.

(** ** The stabilization pass *)

Lemma length_stabilizeStep queue i :
  length (stabilizeStep queue i) = length queue.
Proof.
  unfold stabilizeStep. repeat case_match; by rewrite ?length_swap.
Qed.

Lemma length_foldl_stabilizeStep l queue :
  length (foldl stabilizeStep queue l) = length queue.
Proof.
  revert queue. induction l as [|i l IH]; intros queue; simpl; [done|].
  by rewrite IH, length_stabilizeStep.
Qed.

Lemma length_stabilizeQueueNoImmediateRepeats queue :
  length (stabilizeQueueNoImmediateRepeats queue) = length queue.
Proof. apply length_foldl_stabilizeStep. Qed.

Lemma stabilizeStep_settles k queue :
  settledBelow k queue -> settledBelow (S k) (stabilizeStep queue k).
Proof.
  intros Hset. unfold stabilizeStep.
  destruct (queue !! k) as [cur|] eqn:Hcur; cycle 1.
  { intros i a b Hi Ha Hb Hab.
    destruct (decide (i = k)) as [->|]; [congruence|].
    apply (Hset i a b); [lia | done..]. }
  destruct (queue !! (k + 1)) as [next|] eqn:Hnext; cycle 1.
  { intros i a b Hi Ha Hb Hab.
    destruct (decide (i = k)) as [->|]; [congruence|].
    apply (Hset i a b); [lia | done..]. }
  simpl. case_decide as Hsame; cycle 1.
  { intros i a b Hi Ha Hb Hab.
    destruct (decide (i = k)) as [->|]; [congruence|].
    apply (Hset i a b); [lia | done..]. }
  destruct (findSwapIndex queue (k + 2) (questionId cur)) as [n|] eqn:Hfind.
  - destruct (findSwapIndex_Some _ _ _ _ Hfind) as (Hle & Hlt & e & He & Hne).
    assert (k + 1 < length queue) as Hk1 by by eapply lookup_lt_Some.
    intros i a b Hi Ha Hb Hab. exfalso.
    rewrite swap_lookup in Ha, Hb by done.
    destruct (decide (i = k)) as [->|Hik].
    + (* the pair at [k]: the slot after it now holds the found entry *)
      repeat case_decide; try lia. by simplify_eq.
    + (* an earlier pair is untouched, and was not a repeat *)
      repeat case_decide; try lia.
      assert (i < k) as Hlt' by lia.
      pose proof (Hset i a b Hlt' Ha Hb Hab) as Hconst.
      apply Hne.
      rewrite (Hconst n e), <- (Hconst k cur); [done | lia | done | lia | done].
  - pose proof (findSwapIndex_None _ _ _ Hfind) as Hall.
    intros i a b Hi Ha Hb Hab.
    destruct (decide (i = k)) as [->|]; [|apply (Hset i a b); [lia | done..]].
    simplify_eq. intros j e Hj He.
    destruct (decide (j = k)) as [->|]; [congruence|].
    destruct (decide (j = k + 1)) as [->|]; [congruence|].
    apply (Hall j e); [lia | done].
Qed.

Lemma foldl_stabilizeStep_settles n k queue :
  settledBelow k queue ->
  settledBelow (k + n) (foldl stabilizeStep queue (seq k n)).
Proof.
  revert k queue. induction n as [|n IH]; intros k queue Hset; simpl.
  - by rewrite Nat.add_0_r.
  - replace (k + S n) with (S k + n) by lia.
    apply IH. by apply stabilizeStep_settles.
Qed.

Lemma stabilize_settled queue i a b :
  let queue' := stabilizeQueueNoImmediateRepeats queue in
  queue' !! i = Some a -> queue' !! (i + 1) = Some b ->
  questionId a = questionId b -> constantFrom queue' i (questionId a).
Proof.
  intros queue' Ha Hb Hab.
  assert (settledBelow (length queue - 1) queue') as Hset.
  { apply (foldl_stabilizeStep_settles (length queue - 1) 0 queue).
    intros ? ? ? ?; lia. }
  apply (Hset i a b); [|done..].
  apply lookup_lt_Some in Hb.
  unfold queue' in Hb.
  rewrite length_stabilizeQueueNoImmediateRepeats in Hb. lia.
Qed.

Lemma setIndices_lookup queue i :
  setIndices queue !! i =
    (fun q => {| q_item := q_item q; q_index := i;
                 q_repetitionNumber := q_repetitionNumber q |})
      <$> queue !! i.
Proof. unfold setIndices. apply list_lookup_imap. Qed.

Lemma setIndices_lookup_Some queue i e :
  setIndices queue !! i = Some e ->
  exists e0, queue !! i = Some e0 /\ questionId e = questionId e0.
Proof.
  rewrite setIndices_lookup. destruct (queue !! i) as [e0|]; [|done].
  intros [= <-]. by exists e0.
Qed.

Lemma length_setIndices queue : length (setIndices queue) = length queue.
Proof. unfold setIndices. apply length_imap. Qed.

Lemma length_fisherYates draw queue :
  length (fisherYates draw queue) = length queue.
Proof.
  unfold fisherYates. generalize (reverse (seq 1 (length queue - 1))).
  intros l. revert queue. induction l as [|i l IH]; intros queue; simpl.
  - done.
  - by rewrite IH, length_swap.
Qed.

Lemma length_crossProduct items repetitions :
  length (crossProduct items repetitions) = length items * repetitions.
Proof.
  unfold crossProduct. induction items as [|x items IH]; simpl; [done|].
  rewrite length_app, length_map, length_seq, IH. lia.
Qed.

Lemma length_generateQuestionQueue draw items repetitions :
  length (generateQuestionQueue draw items repetitions)
  = length items * repetitions.
Proof.
  unfold generateQuestionQueue.
  by rewrite length_setIndices, length_stabilizeQueueNoImmediateRepeats,
    length_fisherYates, length_crossProduct.
Qed.

(** ** The transition, field by field *)

Ltac submit_cases :=
  unfold submitAnswer, advanceToNextQuestion, endGame, recordAnswerTime,
    terminates, regenFires, regenCounts;
  repeat case_match; simpl in *;
  repeat match goal with
         | H : _ && _ = true |- _ => apply andb_prop in H as [? ?]
         | H : _ || _ = false |- _ => apply orb_false_elim in H as [? ?]
         end;
  try done; try congruence; try lia.

Section Fields.
Context (env : Setup) (isCorrect : bool) (o : Oracle) (s : State)
        (q : GauntletQuestion).
Hypothesis Hq : questionQueue s !! currentIndex s = Some q.

Let s' := submitAnswer env isCorrect o s.

Lemma submit_lives :
  lives s' =
    if isCorrect
    then if regenFires env s then Z.min (lives s + 1) (maxLives s)
         else lives s
    else (lives s - 1)%Z.
Proof. subst s'. revert Hq. submit_cases. Qed.

Lemma submit_maxLives : maxLives s' = maxLives s.
Proof. subst s'. revert Hq. submit_cases. Qed.

Lemma submit_regenThreshold : regenThreshold s' = regenThreshold s.
Proof. subst s'. revert Hq. submit_cases. Qed.

(** An answer leaves the phase as it is, also when it calls [endGame]. *)
Lemma submit_phase : phase s' = phase s.
Proof. subst s'. revert Hq. submit_cases. Qed.

Lemma submit_correctAnswers :
  correctAnswers s' = correctAnswers s + (if isCorrect then 1 else 0).
Proof. subst s'. revert Hq. submit_cases. Qed.

Lemma submit_wrongAnswers :
  wrongAnswers s' = wrongAnswers s + (if isCorrect then 0 else 1).
Proof. subst s'. revert Hq. submit_cases. Qed.

Lemma submit_currentIndex :
  currentIndex s' =
    if terminates env isCorrect s then currentIndex s
    else currentIndex s + 1.
Proof. subst s'. revert Hq. submit_cases. Qed.

Lemma submit_questionQueue :
  questionQueue s' =
    if terminates env isCorrect s then questionQueue s
    else ensureNextQuestionIsDifferent
           (if isCorrect then questionQueue s else requeue env o s)
           (currentIndex s).
Proof. subst s'. revert Hq. submit_cases. Qed.

Lemma submit_correctSinceLastRegen :
  correctSinceLastRegen s' =
    if isCorrect
    then if regenCounts env s
         then if regenThreshold s <=? correctSinceLastRegen s + 1
              then 0 else correctSinceLastRegen s + 1
         else correctSinceLastRegen s
    else 0.
Proof. subst s'. revert Hq. submit_cases. Qed.

Lemma submit_livesRegenerated :
  livesRegenerated s' =
    livesRegenerated s
    + (if isCorrect && regenFires env s then 1 else 0).
Proof. subst s'. revert Hq. submit_cases. Qed.

Lemma submit_answerTimes :
  answerTimes s' =
    if (0 <? lastAnswerTime s)%Z && (0 <? now o - lastAnswerTime s)%Z
    then (answerTimes s ++ [(now o - lastAnswerTime s)%Z])%list
    else answerTimes s.
Proof. subst s'. revert Hq. submit_cases. Qed.

Lemma submit_lastAnswerTime : lastAnswerTime s' = now o.
Proof. subst s'. revert Hq. submit_cases. Qed.

(** Without termination [endGame] does not run. *)
Lemma submit_sessionStats_continue :
  terminates env isCorrect s = false -> sessionStats s' = sessionStats s.
Proof. subst s'. revert Hq. submit_cases. Qed.

(** With termination the statistics are those of [endGame], fed with the
    counters as they stand after this answer, the lives passed to
    [advanceToNextQuestion], and the timings of the rendered state. *)
Lemma submit_sessionStats_end :
  terminates env isCorrect s = true ->
  exists st,
    sessionStats s' = Some st /\
    SessionStats.completed st
      = (if isCorrect then negb (lives s <=? 0)%Z else false) /\
    SessionStats.correctAnswers st = correctAnswers s' /\
    SessionStats.wrongAnswers st = wrongAnswers s' /\
    SessionStats.accuracy st
      = accuracyOf (correctAnswers s') (wrongAnswers s') /\
    SessionStats.averageTimePerQuestionMs st
      = (if 0 <? length (validTimes (answerTimes s))
         then (inject_Z (sumZ (validTimes (answerTimes s)))
               / inject_Z (Z.of_nat (length (validTimes (answerTimes s)))))%Q
         else 0%Q) /\
    SessionStats.fastestAnswerMs st
      = (if 0 <? length (validTimes (answerTimes s))
         then minOf (validTimes (answerTimes s)) else 0%Z) /\
    SessionStats.slowestAnswerMs st
      = (if 0 <? length (validTimes (answerTimes s))
         then maxOf (validTimes (answerTimes s)) else 0%Z).
Proof.
  rewrite submit_correctAnswers, submit_wrongAnswers.
  subst s'. revert Hq.
  unfold submitAnswer, advanceToNextQuestion, endGame, recordAnswerTime,
    terminates.
  intros ->. destruct isCorrect.
  - intros Hterm.
    destruct (lives s <=? 0)%Z eqn:Hl; simpl in *.
    + eexists; split; [reflexivity|]. simpl. by rewrite Nat.add_0_r.
    + rewrite Hterm. eexists; split; [reflexivity|]. simpl.
      by rewrite Nat.add_0_r.
  - intros ->. eexists; split; [reflexivity|]. simpl.
    by rewrite Nat.add_0_r.
Qed.
End Fields.

(** ** Re-queueing and the look-ahead swap *)

Lemma length_ensureNextQuestionIsDifferent queue i :
  length (ensureNextQuestionIsDifferent queue i) = length queue.
Proof.
  unfold ensureNextQuestionIsDifferent.
  repeat case_match; by rewrite ?length_swap.
Qed.

(** The answered slot and everything before it stay as they are. *)
Lemma ensureNextQuestionIsDifferent_lookup_le queue i k :
  k <= i ->
  ensureNextQuestionIsDifferent queue i !! k = queue !! k.
Proof.
  intros Hk. unfold ensureNextQuestionIsDifferent.
  destruct (length queue <=? i + 1) eqn:Hlen; [done|].
  apply Nat.leb_gt in Hlen.
  destruct (queue !! i) as [cur|]; [|done].
  destruct (queue !! (i + 1)) as [next|]; [|done].
  simpl. case_decide; [|done].
  destruct (findSwapIndex _ _ _) as [n|] eqn:Hfind; [|done].
  destruct (findSwapIndex_Some _ _ _ _ Hfind) as (Hle & Hlt & _).
  rewrite swap_lookup by done. repeat case_decide; (lia || done).
Qed.

(** If anything after the answered slot is another item, so is the next. *)
Lemma ensureNextQuestionIsDifferent_next queue i cur :
  queue !! i = Some cur ->
  (exists j e,
      i < j /\ ensureNextQuestionIsDifferent queue i !! j = Some e /\
      questionId e <> questionId cur) ->
  exists next,
    ensureNextQuestionIsDifferent queue i !! (i + 1) = Some next /\
    questionId next <> questionId cur.
Proof.
  intros Hcur. unfold ensureNextQuestionIsDifferent.
  destruct (length queue <=? i + 1) eqn:Hlen.
  { apply Nat.leb_le in Hlen. intros (j & e & Hj & He & _).
    apply lookup_lt_Some in He. lia. }
  apply Nat.leb_gt in Hlen. rewrite Hcur.
  destruct (lookup_lt_is_Some_2 queue (i + 1) Hlen) as [next Hnext].
  rewrite Hnext. simpl.
  case_decide as Hsame.
  - destruct (findSwapIndex _ _ _) as [n|] eqn:Hfind.
    + intros _.
      destruct (findSwapIndex_Some _ _ _ _ Hfind) as (Hle & Hlt & e & He & Hne).
      exists e. split; [|done].
      rewrite swap_lookup by done. repeat case_decide; (lia || done).
    + intros (j & e & Hj & He & Hne). exfalso. apply Hne.
      destruct (decide (j = i + 1)) as [->|]; [congruence|].
      apply (findSwapIndex_None _ _ _ Hfind j); [lia | done].
  - intros _. exists next. split; [done | congruence].
Qed.

Lemma minOffsetOf_pos r : 1 <= minOffsetOf r.
Proof. unfold minOffsetOf. case_match; lia. Qed.

Lemma length_requeue env o s q :
  questionQueue s !! currentIndex s = Some q ->
  length (requeue env o s) =
    length (questionQueue s)
    + (if length (questionQueue s) <? totalQuestions env * 3 then 1 else 0).
Proof.
  intros Hq. unfold requeue. rewrite Hq.
  case_match; [|lia]. rewrite length_splice_insert. lia.
Qed.

Lemma requeue_lookup_le env o s k :
  validDraw s o -> k <= currentIndex s ->
  requeue env o s !! k = questionQueue s !! k.
Proof.
  intros Hdraw Hk. unfold requeue.
  case_match; [|done].
  destruct (questionQueue s !! currentIndex s) as [q|] eqn:Hq; [|done].
  apply lookup_lt_Some in Hq.
  apply splice_insert_lookup_lt; [|lia].
  unfold validDraw in Hdraw. simpl in Hdraw.
  pose proof (minOffsetOf_pos
                (length (questionQueue s) - (currentIndex s + 1))).
  destruct (Nat.ltb_spec 0 (length (questionQueue s) - (currentIndex s + 1)));
    [specialize (Hdraw ltac:(lia))|]; lia.
Qed.

(** ** Invariants of a session *)

Ltac bool_cases :=
  repeat match goal with
         | |- context [(?a <=? ?b)%Z] => destruct (Z.leb_spec a b)
         | |- context [(?a <? ?b)%Z] => destruct (Z.ltb_spec a b)
         | |- context [?a <=? ?b] => destruct (Nat.leb_spec a b)
         | |- context [?a <? ?b] => destruct (Nat.ltb_spec a b)
         | |- context [d_regenerates ?c] => destruct (d_regenerates c)
         end;
  simpl.

Lemma submitAnswer_no_question env isCorrect o s :
  questionQueue s !! currentIndex s = None ->
  submitAnswer env isCorrect o s = s.
Proof. intros Hq. unfold submitAnswer. by rewrite Hq. Qed.

Lemma calculateRegenThreshold_bounds n :
  5 <= calculateRegenThreshold n <= 20.
Proof. unfold calculateRegenThreshold. lia. Qed.

Lemma ceilTenth_spec n :
  n <= 10 * ceilTenth n /\ 10 * ceilTenth n < n + 10.
Proof.
  unfold ceilTenth.
  pose proof (Nat.div_mod_eq (n + 9) 10) as Hdiv.
  pose proof (Nat.mod_upper_bound (n + 9) 10). lia.
Qed.

Section Session.
Context (env : Setup).

Lemma handleStart_queue_length draw startNow s0 :
  length (questionQueue (handleStart env draw startNow s0))
  = totalQuestions env.
Proof. simpl. apply length_generateQuestionQueue. Qed.

(** Where the answer screen is rendered there are items, the pre-game
    screen is behind, and the results are not both due and at hand. *)
Lemma renderScreen_ActiveGame c s :
  renderScreen env c s = ActiveGame ->
  items env <> [] /\ phase s <> pregame /\
  ~ (phase s = results /\ is_Some (sessionStats s)).
Proof.
  unfold renderScreen. intros Hrender.
  destruct (decide (length (items env) = 0)) as [|Hlen]; [done|].
  destruct (decide (phase s = pregame)) as [|Hpre]; [done|].
  split; [by intros Hnil; rewrite Hnil in Hlen|].
  split; [done|]. intros [Hres Hstats].
  rewrite (bool_decide_eq_true_2 (phase s = results) Hres),
    (bool_decide_eq_true_2 (is_Some (sessionStats s)) Hstats) in Hrender.
  done.
Qed.

Lemma statsInStep_is_Some s : statsInStep s -> is_Some (sessionStats s).
Proof. intros (st & Hst & _). by exists st. Qed.

(** An ending answer leaves statistics in step with the counters. *)
Lemma submit_statsInStep b o s q :
  questionQueue s !! currentIndex s = Some q ->
  terminates env b s = true ->
  statsInStep (submitAnswer env b o s).
Proof.
  intros Hq Hterm.
  destruct (submit_sessionStats_end env b o s q Hq Hterm)
    as (st & Hst & _ & Hc & Hw & Hacc & _).
  by exists st.
Qed.

Lemma shapeInv_playing held s :
  shapeInv env held s -> answerScreenShown env s -> phase s = playing.
Proof.
  intros (Hpre & Hres & Hheld) [c Hrender].
  apply renderScreen_ActiveGame in Hrender as (_ & _ & Hnot).
  destruct (phase s) eqn:Hphase; [done|done|].
  exfalso. apply Hnot. split; [done|].
  destruct (Hres eq_refl) as [kept ->].
  destruct Hheld as [_ Hstats]. by apply statsInStep_is_Some.
Qed.

Lemma session_shapeInv held s : session env held s -> shapeInv env held s.
Proof.
  induction 1 as [draw startNow s0 _ _
                 |held b o s q Hsess IH Hshown Hq Hdraw Hkept
                 |kept s Hsess IH].
  - split; [done|]. split; [done|]. right. simpl. lia.
  - pose proof (shapeInv_playing held s IH Hshown) as Hphase.
    destruct IH as (_ & _ & IH).
    split; [by rewrite (submit_phase _ _ _ _ _ Hq), Hphase|].
    split; [by rewrite (submit_phase _ _ _ _ _ Hq), Hphase|].
    destruct (terminates env b s) eqn:Hterm.
    + split; [|by apply (submit_statsInStep b o s q)].
      rewrite (submit_lives _ _ _ _ _ Hq), (submit_maxLives _ _ _ _ _ Hq),
        (submit_correctAnswers _ _ _ _ _ Hq).
      revert Hterm. unfold terminates, regenFires, regenCounts.
      destruct b.
      * destruct held as [kept|].
        -- rewrite <- (Hkept kept eq_refl) in IH. destruct IH as [IH _].
           bool_cases; intros Hterm; try done; lia.
        -- bool_cases; intros Hterm; try done; lia.
      * bool_cases; intros Hterm; try done; lia.
    + destruct held as [kept|].
      * exfalso. rewrite <- (Hkept kept eq_refl) in IH. destruct IH as [IH _].
        revert Hterm. unfold terminates.
        destruct b; bool_cases; intros Hterm; try done; lia.
      * rewrite (submit_lives _ _ _ _ _ Hq), (submit_maxLives _ _ _ _ _ Hq).
        revert Hterm. unfold terminates, regenFires, regenCounts.
        destruct b; bool_cases; intros Hterm; try done; lia.
  - destruct IH as (_ & _ & IH). split; [done|]. split; [by eexists|]. done.
Qed.

(** The answer screen is up exactly while the phase is playing. *)
Lemma session_playing held s :
  session env held s -> answerScreenShown env s -> phase s = playing.
Proof. intros Hsess. apply (shapeInv_playing held). by apply session_shapeInv. Qed.

Lemma session_items held s : session env held s -> items env <> [].
Proof. by induction 1. Qed.

(** Induction over the states of a session. *)
Lemma reachable_induction (P : State -> Prop) :
  (forall draw startNow s0,
      items env <> [] -> validShuffle draw ->
      P (handleStart env draw startNow s0)) ->
  (forall b o s q,
      reachable env s -> P s -> phase s = playing ->
      questionQueue s !! currentIndex s = Some q ->
      (b = false -> validDraw s o) ->
      P (submitAnswer env b o s)) ->
  (forall s, reachable env s -> P s -> P (saveSettled s)) ->
  forall s, reachable env s -> P s.
Proof.
  intros Hstart Hsubmit Hsettle s [held Hsess].
  induction Hsess as [draw startNow s0 Hitems Hshuf
                     |held b o s q Hsess IH Hshown Hq Hdraw Hkept
                     |kept s Hsess IH].
  - by apply Hstart.
  - apply (Hsubmit b o s q); [by exists held | done | | done..].
    by apply (session_playing held).
  - apply Hsettle; [by exists (Some kept) | done].
Qed.

Lemma reachable_queue_bound s :
  reachable env s -> length (questionQueue s) <= 3 * totalQuestions env.
Proof.
  revert s. apply reachable_induction.
  - intros draw startNow s0 _ _. rewrite handleStart_queue_length. lia.
  - intros b o s q _ IH _ Hq _.
    rewrite (submit_questionQueue _ _ _ _ _ Hq).
    case_match; [done|].
    rewrite length_ensureNextQuestionIsDifferent.
    destruct b; [done|].
    rewrite (length_requeue _ _ _ _ Hq). bool_cases; lia.
  - done.
Qed.

Lemma reachable_regenThreshold s :
  reachable env s ->
  regenThreshold s = calculateRegenThreshold (totalQuestions env).
Proof.
  revert s. apply reachable_induction.
  - intros draw startNow s0 _ _. simpl. by rewrite length_generateQuestionQueue.
  - intros b o s q _ IH _ Hq _. by rewrite (submit_regenThreshold _ _ _ _ _ Hq).
  - done.
Qed.

Lemma reachable_items s : reachable env s -> items env <> [].
Proof. intros [held Hsess]. by apply (session_items held s). Qed.

Lemma reachable_total_pos s :
  1 <= repetitions env -> reachable env s -> 1 <= totalQuestions env.
Proof.
  intros Hreps Hreach. apply reachable_items in Hreach.
  unfold totalQuestions.
  destruct (items env); [done|]. simpl. lia.
Qed.

Lemma reachable_livesInv s : reachable env s -> livesInv env s.
Proof.
  revert s. apply reachable_induction.
  - intros draw startNow s0 _ _. unfold livesInv. simpl.
    rewrite length_generateQuestionQueue. repeat split; lia.
  - intros b o s q _ (Hmax & Hle & Hliv & Hreg & Hthr) _ Hq _.
    pose proof (calculateRegenThreshold_bounds (totalQuestions env))
      as Hbounds.
    unfold livesInv.
    rewrite (submit_maxLives _ _ _ _ _ Hq), (submit_lives _ _ _ _ _ Hq),
      (submit_correctAnswers _ _ _ _ _ Hq),
      (submit_wrongAnswers _ _ _ _ _ Hq),
      (submit_livesRegenerated _ _ _ _ _ Hq),
      (submit_correctSinceLastRegen _ _ _ _ _ Hq),
      (submit_regenThreshold _ _ _ _ _ Hq).
    unfold regenFires, regenCounts.
    destruct b; bool_cases; repeat split; try lia; try nia.
  - done.
Qed.

Section Lives.
Hypothesis Hlives : (1 <= d_lives (diffConfig env))%Z.
Hypothesis Hreps : 1 <= repetitions env.

(** Before the first ending answer, and after it. *)
Lemma session_progress held s :
  session env held s ->
  match held with
  | None => progressInv env s
  | Some kept => endedInv env kept s
  end.
Proof.
  induction 1 as [draw startNow s0 Hitems Hshuf
                 |held b o s q Hsess IH Hshown Hq Hdraw Hkept
                 |kept s Hsess IH].
  - unfold progressInv. simpl. rewrite length_generateQuestionQueue.
    fold (totalQuestions env).
    assert (1 <= totalQuestions env).
    { unfold totalQuestions. destruct (items env); [done|]. simpl. lia. }
    repeat split; lia.
  - pose proof (session_playing held s Hsess Hshown) as Hphase.
    assert (reachable env s) as Hreach by by exists held.
    destruct (reachable_livesInv s Hreach) as (Hmax & Hle & _).
    destruct (terminates env b s) eqn:Hterm.
    + destruct (submit_sessionStats_end env b o s q Hq Hterm)
        as (st & Hst & Hcompleted & _).
      unfold endedInv.
      rewrite Hst, (submit_lives _ _ _ _ _ Hq),
        (submit_correctAnswers _ _ _ _ _ Hq).
      simpl. rewrite Hcompleted.
      revert Hterm. unfold terminates, regenFires, regenCounts.
      destruct held as [kept|].
      * rewrite <- (Hkept kept eq_refl) in IH. destruct IH as [IH _].
        destruct b; bool_cases; intros Hterm; try done;
          first [by exfalso; lia | split; [lia | done]].
      * destruct IH as (_ & Hpos & Hlt & _).
        destruct b; bool_cases; intros Hterm; try done;
          first [by exfalso; lia | split; [lia | done]].
    + destruct held as [kept|].
      * exfalso. rewrite <- (Hkept kept eq_refl) in IH. destruct IH as [IH _].
        revert Hterm. unfold terminates.
        destruct b; bool_cases; intros Hterm; try done; lia.
      * destruct IH as (_ & Hpos & Hlt & Hidx & Hlen).
        unfold progressInv.
        rewrite (submit_phase _ _ _ _ _ Hq),
          (submit_currentIndex _ _ _ _ _ Hq),
          (submit_questionQueue _ _ _ _ _ Hq),
          (submit_correctAnswers _ _ _ _ _ Hq),
          (submit_wrongAnswers _ _ _ _ _ Hq),
          (submit_lives _ _ _ _ _ Hq), Hterm.
        rewrite length_ensureNextQuestionIsDifferent.
        revert Hterm. unfold terminates, regenFires, regenCounts.
        destruct b.
        -- bool_cases; intros Hterm; try done;
             repeat split; first [done | lia].
        -- rewrite (length_requeue _ _ _ _ Hq).
           bool_cases; intros Hterm; try done;
             repeat split; first [done | lia].
  - done.
Qed.
End Lives.
End Session.

(** ** The tenth, rounded up *)

(** For every target up to 2000 the ceiling of the binary64 product is the
    integer ceiling used by [calculateRegenThreshold]; past 200 the clamp
    makes the threshold 20 either way. *)
Lemma ceilTenth_binary64 :
  forallb (fun n => ceilIs (tenthBinary64 n) (ceilTenth n)) (seq 0 2001)
  = true.
Proof. vm_compute. reflexivity. Qed.

(** ** The sample sessions are sessions *)

Lemma validShuffle_noShuffle : validShuffle noShuffle.
Proof. intros i. unfold noShuffle. lia. Qed.

Lemma shown_while_playing env s :
  items env <> [] -> phase s = playing -> answerScreenShown env s.
Proof.
  intros Hitems Hphase.
  exists {| gameMode := PickMode; hasGetCorrectOption := true;
            hasCheckAnswer := true |}.
  unfold renderScreen. rewrite Hphase.
  destruct (decide (length (items env) = 0)) as [Hlen|]; [|done].
  by destruct (items env).
Qed.

Lemma session_sAB0 : session envAB None sAB0.
Proof. apply session_start; [done | apply validShuffle_noShuffle]. Qed.

Lemma session_sAB1 : session envAB None sAB1.
Proof.
  refine (session_submit envAB None true (orc 1500 1) sAB0
            {| q_item := prim "a"; q_index := 0; q_repetitionNumber := 1 |}
            session_sAB0 _ _ _ _).
  - apply shown_while_playing; [done | vm_compute; reflexivity].
  - vm_compute. reflexivity.
  - done.
  - done.
Qed.

Lemma session_sAB2 : session envAB None sAB2.
Proof.
  refine (session_submit envAB None false (orc 1700 1) sAB1
            {| q_item := prim "b"; q_index := 1; q_repetitionNumber := 1 |}
            session_sAB1 _ _ _ _).
  - apply shown_while_playing; [done | vm_compute; reflexivity].
  - vm_compute. reflexivity.
  - intros _ _. vm_compute. lia.
  - done.
Qed.

Lemma session_sAB3 : session envAB (Some true) sAB3.
Proof.
  refine (session_submit envAB None true (orc 1900 1) sAB2
            {| q_item := prim "b"; q_index := 1; q_repetitionNumber := 1 |}
            session_sAB2 _ _ _ _).
  - apply shown_while_playing; [done | vm_compute; reflexivity].
  - vm_compute. reflexivity.
  - done.
  - done.
Qed.

Lemma session_sABend : session envAB (Some true) sABend.
Proof. apply session_settle, session_sAB3. Qed.

Lemma reachable_sAB0 : reachable envAB sAB0.
Proof. exists None. apply session_sAB0. Qed.

Lemma reachable_sAB1 : reachable envAB sAB1.
Proof. exists None. apply session_sAB1. Qed.

Lemma reachable_sAB2 : reachable envAB sAB2.
Proof. exists None. apply session_sAB2. Qed.

Lemma reachable_sAB3 : reachable envAB sAB3.
Proof. exists (Some true). apply session_sAB3. Qed.

Lemma reachable_sABend : reachable envAB sABend.
Proof. exists (Some true). apply session_sABend. Qed.

Lemma session_s100 : session env100 None s100.
Proof.
  refine (session_submit env100 None false (orc 1500 2)
            (handleStart env100 noShuffle 1000 initialState)
            {| q_item := prim "a"; q_index := 0; q_repetitionNumber := 1 |}
            _ _ _ _ _).
  - apply session_start; [done | apply validShuffle_noShuffle].
  - apply shown_while_playing; [done | vm_compute; reflexivity].
  - vm_compute. reflexivity.
  - intros _ _. vm_compute. lia.
  - done.
Qed.

Lemma reachable_s100 : reachable env100 s100.
Proof. exists None. apply session_s100. Qed.

Lemma session_sOne0 : session envOne None sOne0.
Proof. apply session_start; [done | apply validShuffle_noShuffle]. Qed.

Lemma session_sOne1 : session envOne (Some false) sOne1.
Proof.
  refine (session_submit envOne None false (orc 1500 1) sOne0
            {| q_item := prim "a"; q_index := 0; q_repetitionNumber := 1 |}
            session_sOne0 _ _ _ _).
  - apply shown_while_playing; [done | vm_compute; reflexivity].
  - vm_compute. reflexivity.
  - intros _ _. vm_compute. lia.
  - done.
Qed.

Lemma session_sOne2 : session envOne (Some false) sOne2.
Proof.
  refine (session_submit envOne (Some false) false (orc 1600 1) sOne1
            {| q_item := prim "a"; q_index := 0; q_repetitionNumber := 1 |}
            session_sOne1 _ _ _ _).
  - apply shown_while_playing; [done | vm_compute; reflexivity].
  - vm_compute. reflexivity.
  - intros _ _. vm_compute. lia.
  - by intros kept [= <-].
Qed.


(** * The session engine's guarantees *)

(** ** C1: lives *)

(** C1.  A single starting life.  The first answer is wrong: it takes the
    life and calls [endGame], which waits for the save with the phase still
    playing and the question key as it was.  The answer screen is still up
    and hands the same result in again: [submitAnswer] subtracts without a
    floor, and the lives are [-1]. *)
Theorem lives_fall_below_zero :
  session envOne (Some false) sOne2 /\
  lives sOne0 = 1%Z /\
  lives sOne1 = 0%Z /\ phase sOne1 = playing /\
  questionKey sOne1 = questionKey sOne0 /\
  lives sOne2 = (-1)%Z /\ phase sOne2 = playing.
Proof.
  split; [apply session_sOne2|].
  vm_compute. repeat split; reflexivity.
Qed.

(** ** C2: the end of a session *)

(** The answer that takes the last life leaves the phase at playing. *)
Lemma last_life_leaves_phase_playing :
  ~ (forall env s isCorrect o q,
        reachable env s -> phase s = playing ->
        questionQueue s !! currentIndex s = Some q ->
        let s' := submitAnswer env isCorrect o s in
        (lives s' <= 0)%Z -> phase s' = results).
Proof.
  intros Hclaim.
  assert (phase sOne1 = results) as Hphase.
  { apply (Hclaim envOne sOne0 false (orc 1500 1)
             {| q_item := prim "a"; q_index := 0; q_repetitionNumber := 1 |}).
    - exists None. apply session_sOne0.
    - vm_compute. reflexivity.
    - vm_compute. reflexivity.
    - vm_compute. discriminate. }
  vm_compute in Hphase. discriminate Hphase.
Qed.

(** C2, as amended.  In a session with at least one starting life and one
    repetition, an answer is dispatched on the lives first: none left calls
    [endGame] with the session not completed; otherwise a met target calls
    it with the session completed; otherwise the statistics stay and the
    index moves on.  The lives come first in any state whatever: with no
    life handed on, the session is not completed also when the answer was
    correct and met the target.  An answer never changes the phase; the late
    half of [endGame] sets it to results; and once it is results, after an
    answer that called [endGame], the late half changes nothing more and
    the answer screen is gone. *)
Theorem dispatch_on_lives_then_target env held s :
  (1 <= d_lives (diffConfig env))%Z ->
  1 <= repetitions env ->
  session env held s ->
  (forall isCorrect o q,
      phase s = playing -> questionQueue s !! currentIndex s = Some q ->
      (forall kept, held = Some kept -> isCorrect = kept) ->
      let s' := submitAnswer env isCorrect o s in
      if (lives s' <=? 0)%Z then
        SessionStats.completed <$> sessionStats s' = Some false /\
        currentIndex s' = currentIndex s
      else if totalQuestions env <=? correctAnswers s' then
        SessionStats.completed <$> sessionStats s' = Some true /\
        currentIndex s' = currentIndex s
      else sessionStats s' = sessionStats s /\
           currentIndex s' = currentIndex s + 1) /\
  (forall isCorrect o s0 q,
      questionQueue s0 !! currentIndex s0 = Some q ->
      (livesHandedOn isCorrect s0 <= 0)%Z ->
      SessionStats.completed
        <$> sessionStats (submitAnswer env isCorrect o s0) = Some false) /\
  (forall isCorrect o, phase (submitAnswer env isCorrect o s) = phase s) /\
  phase (saveSettled s) = results /\
  (phase s = results ->
   is_Some held /\ saveSettled s = s /\ ~ answerScreenShown env s).
Proof.
  intros Hlives Hreps Hsess.
  split; [|split; [|split; [|split]]].
  - intros b o q Hphase Hq Hkept s'. subst s'.
    pose proof (session_progress env Hlives Hreps held s Hsess) as Hinv.
    rewrite (submit_lives _ _ _ _ _ Hq),
      (submit_correctAnswers _ _ _ _ _ Hq),
      (submit_currentIndex _ _ _ _ _ Hq).
    assert (match held with
            | None => (1 <= lives s)%Z /\ correctAnswers s < totalQuestions env
            | Some kept =>
                if b then totalQuestions env <= correctAnswers s /\
                          (1 <= lives s)%Z
                else (lives s <= 0)%Z
            end) as Hfacts.
    { destruct held as [kept|].
      - rewrite <- (Hkept kept eq_refl) in Hinv. destruct Hinv as [Hinv _].
        destruct b; [done | by destruct Hinv].
      - by destruct Hinv as (_ & ? & ? & _). }
    assert (reachable env s) as Hreach by by exists held.
    destruct (reachable_livesInv env s Hreach) as (_ & Hle & _).
    destruct (terminates env b s) eqn:Hterm.
    + destruct (submit_sessionStats_end env b o s q Hq Hterm)
        as (st & -> & Hcompleted & _).
      simpl. rewrite Hcompleted.
      revert Hterm. unfold terminates.
      destruct held as [kept|];
        (destruct b; [destruct (regenFires env s)|]); simpl in Hfacts;
        bool_cases; intros Hterm; try done; lia.
    + rewrite (submit_sessionStats_continue env b o s q Hq Hterm).
      revert Hterm. unfold terminates.
      destruct held as [kept|];
        (destruct b; [destruct (regenFires env s)|]); simpl in Hfacts;
        bool_cases; intros Hterm; try done; lia.
  - intros b o s0 q Hq Hnone.
    assert (terminates env b s0 = true) as Hterm.
    { revert Hnone. unfold terminates, livesHandedOn.
      destruct b; bool_cases; intros; (done || lia). }
    destruct (submit_sessionStats_end env b o s0 q Hq Hterm)
      as (st & -> & Hcompleted & _).
    simpl. rewrite Hcompleted.
    revert Hnone. unfold livesHandedOn.
    destruct b; bool_cases; intros; (done || lia).
  - intros b o.
    destruct (questionQueue s !! currentIndex s) as [q|] eqn:Hq.
    + apply (submit_phase _ _ _ _ _ Hq).
    + by rewrite submitAnswer_no_question.
  - done.
  - intros Hphase.
    destruct (session_shapeInv env held s Hsess) as (_ & Hheld & _).
    split; [by apply Hheld|]. split.
    + destruct s. simpl in Hphase. by subst.
    + intros Hshown.
      pose proof (session_playing env held s Hsess Hshown). congruence.
Qed.

Lemma dispatch_on_lives_then_target_witness :
  SessionStats.completed <$> sessionStats sAB3 = Some true /\
  currentIndex sAB3 = currentIndex sAB2 /\
  SessionStats.completed
    <$> sessionStats (submitAnswer envAB true (orc 1900 1) (setLives 0 sAB2))
  = Some false /\
  phase sAB3 = playing /\ phase (saveSettled sAB3) = results.
Proof.
  destruct (dispatch_on_lives_then_target envAB (Some true) sAB3)
    as (_ & _ & _ & Hsettled & _).
  - vm_compute. discriminate.
  - vm_compute. lia.
  - apply session_sAB3.
  - destruct (dispatch_on_lives_then_target envAB None sAB2)
      as (Hdispatch & Hfirst & Hphase & _).
    + vm_compute. discriminate.
    + vm_compute. lia.
    + apply session_sAB2.
    + assert (phase sAB2 = playing) as Hplaying by (vm_compute; reflexivity).
      assert (questionQueue sAB2 !! currentIndex sAB2
              = Some {| q_item := prim "b"; q_index := 1;
                        q_repetitionNumber := 1 |}) as Hq
        by (vm_compute; reflexivity).
      assert (forall kept, @None bool = Some kept -> true = kept) as Hkept
        by done.
      pose proof (Hdispatch true (orc 1900 1) _ Hplaying Hq Hkept) as Hd.
      cbv zeta in Hd.
      change (submitAnswer envAB true (orc 1900 1) sAB2) with sAB3 in Hd.
      assert ((lives sAB3 <=? 0)%Z = false) as Hl
        by (vm_compute; reflexivity).
      assert ((totalQuestions envAB <=? correctAnswers sAB3) = true) as Hc
        by (vm_compute; reflexivity).
      rewrite Hl, Hc in Hd.
      destruct Hd as [Hcompleted Hindex].
      split; [exact Hcompleted|]. split; [exact Hindex|].
      split.
      * apply (Hfirst true (orc 1900 1) (setLives 0 sAB2)
                 {| q_item := prim "b"; q_index := 1;
                    q_repetitionNumber := 1 |}).
        -- vm_compute. reflexivity.
        -- vm_compute. discriminate.
      * split; [|exact Hsettled].
        transitivity (phase sAB2);
          [apply (Hphase true (orc 1900 1)) | vm_compute; reflexivity].
Defined.

(** ** C3: the initial queue *)

(** C3, as amended.  In the initial queue two neighbours share an item only
    inside a final run of that one item: wherever entries [i] and [i + 1]
    share an identity, every entry from [i] to the end has it. *)
Theorem initial_queue_repeats_only_in_final_run draw items repetitions i a b :
  let queue := generateQuestionQueue draw items repetitions in
  queue !! i = Some a -> queue !! (i + 1) = Some b ->
  questionId a = questionId b ->
  forall j e, i <= j -> queue !! j = Some e -> questionId e = questionId a.
Proof.
  intros queue Ha Hb Hab j e Hj He. subst queue.
  unfold generateQuestionQueue in *.
  apply setIndices_lookup_Some in Ha as (a0 & Ha & Ha').
  apply setIndices_lookup_Some in Hb as (b0 & Hb & Hb').
  apply setIndices_lookup_Some in He as (e0 & He & He').
  rewrite Ha', Hb' in Hab. rewrite Ha', He'.
  by apply (stabilize_settled _ i a0 b0 Ha Hb Hab j e0).
Qed.

Lemma initial_queue_repeats_only_in_final_run_witness :
  questionId <$> generateQuestionQueue noShuffle itemsABC 3 !! 8 = Some "c".
Proof.
  destruct (generateQuestionQueue noShuffle itemsABC 3 !! 8) as [e|] eqn:He;
    [|vm_compute in He; discriminate He].
  simpl. f_equal.
  refine (initial_queue_repeats_only_in_final_run noShuffle itemsABC 3 6
           {| q_item := prim "c"; q_index := 6; q_repetitionNumber := 1 |}
           {| q_item := prim "c"; q_index := 7; q_repetitionNumber := 2 |}
           _ _ _ 8 e _ He).
  - vm_compute. reflexivity.
  - vm_compute. reflexivity.
  - vm_compute. reflexivity.
  - lia.
Defined.

(** The forward pass cannot break a run that reaches the end of the queue:
    three items repeated three times and left in order by the shuffle end
    with the third item three times in a row. *)
Lemma initial_queue_can_repeat :
  ~ (forall draw items repetitions,
        validShuffle draw -> 1 < distinctIds items ->
        forall i, ~ repeatAt (generateQuestionQueue draw items repetitions) i).
Proof.
  intros Hclaim.
  apply (Hclaim noShuffle itemsABC 3 validShuffle_noShuffle
           ltac:(vm_compute; lia) 6).
  unfold repeatAt. eexists _, _. vm_compute. repeat split; reflexivity.
Qed.

(** ** C4: the next question *)

(** C4, as amended.  After an answer on which the session continues, the
    answered entry is still in its slot, and the new current entry is another
    item whenever any entry after the answered slot is another item.  A
    repeat is left to the case where everything that remains in the queue,
    the re-queued copy included, is the answered item. *)
Theorem next_question_differs_when_possible env isCorrect o s q :
  questionQueue s !! currentIndex s = Some q ->
  (isCorrect = false -> validDraw s o) ->
  terminates env isCorrect s = false ->
  let s' := submitAnswer env isCorrect o s in
  currentIndex s' = currentIndex s + 1 /\
  questionQueue s' !! currentIndex s = Some q /\
  ((exists j e,
       currentIndex s < j /\ questionQueue s' !! j = Some e /\
       questionId e <> questionId q) ->
   exists q',
     questionQueue s' !! currentIndex s' = Some q' /\
     questionId q' <> questionId q).
Proof.
  intros Hq Hdraw Hterm s'. subst s'.
  rewrite (submit_currentIndex _ _ _ _ _ Hq),
    (submit_questionQueue _ _ _ _ _ Hq), Hterm.
  set (queue := if isCorrect then questionQueue s else requeue env o s).
  assert (queue !! currentIndex s = Some q) as Hq'.
  { subst queue. destruct isCorrect; [done|].
    rewrite requeue_lookup_le; [done | by apply Hdraw | done]. }
  split; [done|]. split.
  - by rewrite ensureNextQuestionIsDifferent_lookup_le.
  - by apply ensureNextQuestionIsDifferent_next.
Qed.

Lemma next_question_differs_when_possible_witness :
  exists q',
    questionQueue sAB1 !! currentIndex sAB1 = Some q' /\
    questionId q' <> "a".
Proof.
  refine (proj2 (proj2
    (next_question_differs_when_possible envAB true (orc 1500 1) sAB0
       {| q_item := prim "a"; q_index := 0; q_repetitionNumber := 1 |}
       _ _ _)) _).
  - vm_compute. reflexivity.
  - intros Hfalse. discriminate Hfalse.
  - vm_compute. reflexivity.
  - exists 1, {| q_item := prim "b"; q_index := 1; q_repetitionNumber := 1 |}.
    split; [vm_compute; lia|]. split; [vm_compute; reflexivity|].
    vm_compute. discriminate.
Defined.

(** A wrong answer on the last entry of the queue puts the copy right behind
    it, with nothing left to swap in: the item comes again although the item
    set has two identities. *)
Lemma repeat_after_wrong_last_entry :
  ~ (forall env s isCorrect o q q',
        reachable env s -> phase s = playing ->
        (isCorrect = false -> validDraw s o) ->
        questionQueue s !! currentIndex s = Some q ->
        terminates env isCorrect s = false ->
        let s' := submitAnswer env isCorrect o s in
        1 < distinctIds (items env) ->
        questionQueue s' !! currentIndex s' = Some q' ->
        questionId q' <> questionId q).
Proof.
  intros Hclaim.
  apply (Hclaim envAB sAB1 false (orc 1700 1)
           {| q_item := prim "b"; q_index := 1; q_repetitionNumber := 1 |}
           {| q_item := prim "b"; q_index := 1; q_repetitionNumber := 1 |}
           reachable_sAB1).
  - vm_compute. reflexivity.
  - intros _. unfold validDraw. vm_compute. lia.
  - vm_compute. reflexivity.
  - vm_compute. reflexivity.
  - vm_compute. lia.
  - vm_compute. reflexivity.
  - reflexivity.
Qed.

(** ** C5: the length of the queue *)

(** C5.  The queue of a reachable state is never longer than three times the
    target; an answer lengthens it by one exactly when it is wrong, leaves a
    life, and the queue is still below that cap, and otherwise keeps its
    length. *)
Theorem queue_growth_bounded env s :
  reachable env s ->
  length (questionQueue s) <= 3 * totalQuestions env /\
  (forall isCorrect o q,
      questionQueue s !! currentIndex s = Some q ->
      length (questionQueue (submitAnswer env isCorrect o s)) =
        if isCorrect then length (questionQueue s)
        else if (lives s - 1 <=? 0)%Z then length (questionQueue s)
        else if length (questionQueue s) <? totalQuestions env * 3
        then length (questionQueue s) + 1
        else length (questionQueue s)).
Proof.
  intros Hreach. split; [by apply reachable_queue_bound|].
  intros b o q Hq. rewrite (submit_questionQueue _ _ _ _ _ Hq).
  unfold terminates. destruct b.
  - case_match; [done|]. by rewrite length_ensureNextQuestionIsDifferent.
  - case_match; [done|].
    rewrite length_ensureNextQuestionIsDifferent, (length_requeue _ _ _ _ Hq).
    case_match; lia.
Qed.

Lemma queue_growth_bounded_witness :
  length (questionQueue sAB2) <= 3 * totalQuestions envAB /\
  length (questionQueue sAB2) = length (questionQueue sAB1) + 1.
Proof.
  destruct (queue_growth_bounded envAB sAB2 reachable_sAB2) as [Hbound _].
  destruct (queue_growth_bounded envAB sAB1 reachable_sAB1) as [_ Hstep].
  split; [exact Hbound|].
  apply (Hstep false (orc 1700 1)
           {| q_item := prim "b"; q_index := 1; q_repetitionNumber := 1 |}).
  vm_compute. reflexivity.
Defined.

(** ** C6: regeneration *)

(** Correct answers below the threshold only move the counter. *)
Lemma correctRun_counting env os : forall s,
  d_regenerates (diffConfig env) = true ->
  (lives s < maxLives s)%Z ->
  correctSinceLastRegen s + length os < regenThreshold s ->
  currentIndex s + length os <= length (questionQueue s) ->
  let s' := correctRun env os s in
  phase s' = phase s /\ lives s' = lives s /\ maxLives s' = maxLives s /\
  regenThreshold s' = regenThreshold s /\
  correctSinceLastRegen s' = correctSinceLastRegen s + length os /\
  livesRegenerated s' = livesRegenerated s /\
  correctAnswers s' = correctAnswers s + length os /\
  currentIndex s' <= currentIndex s + length os /\
  length (questionQueue s') = length (questionQueue s).
Proof.
  induction os as [|o os IH]; intros s Hregen Hlives Hcsr Hidx.
  - simpl. repeat split; (done || lia).
  - simpl in *.
    destruct (lookup_lt_is_Some_2 (questionQueue s) (currentIndex s))
      as [q Hq]; [lia|].
    set (s1 := submitAnswer env true o s).
    assert (regenCounts env s = true) as Hcounts.
    { unfold regenCounts. rewrite Hregen. bool_cases; (done || lia). }
    assert (regenFires env s = false) as Hfires.
    { unfold regenFires. rewrite Hcounts. bool_cases; (done || lia). }
    pose proof (submit_phase env true o s q Hq) as Hp.
    pose proof (submit_lives env true o s q Hq) as Hl.
    pose proof (submit_maxLives env true o s q Hq) as Hm.
    pose proof (submit_regenThreshold env true o s q Hq) as Ht.
    pose proof (submit_correctSinceLastRegen env true o s q Hq) as Hr.
    pose proof (submit_livesRegenerated env true o s q Hq) as Hg.
    pose proof (submit_correctAnswers env true o s q Hq) as Hca.
    pose proof (submit_currentIndex env true o s q Hq) as Hi.
    pose proof (submit_questionQueue env true o s q Hq) as Hqq.
    rewrite Hfires in Hl, Hg. rewrite Hcounts in Hr. simpl in Hg, Hca.
    assert ((regenThreshold s <=? correctSinceLastRegen s + 1) = false) as Hb
      by (apply Nat.leb_gt; lia).
    rewrite Hb in Hr.
    apply (f_equal length) in Hqq.
    assert (length (questionQueue (submitAnswer env true o s))
            = length (questionQueue s)) as Hlen.
    { rewrite Hqq. destruct (terminates env true s); [done|].
      apply length_ensureNextQuestionIsDifferent. }
    assert (currentIndex (submitAnswer env true o s) <= currentIndex s + 1)
      as Hi'.
    { rewrite Hi. destruct (terminates env true s); lia. }
    clear Hqq Hi.
    fold s1 in Hp, Hl, Hm, Ht, Hr, Hg, Hca, Hi', Hlen.
    destruct (IH s1) as (? & ? & ? & ? & ? & ? & ? & ? & ?);
      [done | lia..|].
    repeat split; try congruence; lia.
Qed.

Lemma correctRun_app env os1 os2 s :
  correctRun env (os1 ++ os2) s = correctRun env os2 (correctRun env os1 s).
Proof. unfold correctRun. apply foldl_app. Qed.

(** C6.  The threshold of a session is the tenth of the target rounded up
    and held between 5 and 20, and it does not change.  Take a state of a
    session with regeneration permitted, lives below the maximum, the
    counter at zero, and a threshold's worth of entries from the index on.
    Then each correct answer short of the threshold adds one to the counter
    and leaves the lives alone; the answer that reaches the threshold
    restores exactly one life, clears the counter and counts one
    regeneration; and a wrong answer anywhere in that run, whatever the
    counter has reached, sets it back to zero, restores nothing and takes a
    life. *)
Theorem regeneration_at_threshold env s os :
  reachable env s ->
  d_regenerates (diffConfig env) = true ->
  (lives s < maxLives s)%Z ->
  correctSinceLastRegen s = 0 ->
  length os = regenThreshold s ->
  currentIndex s + regenThreshold s <= length (questionQueue s) ->
  regenThreshold s
    = Nat.max 5 (Nat.min 20 (ceilTenth (totalQuestions env))) /\
  (totalQuestions env <= 10 * ceilTenth (totalQuestions env)
     < totalQuestions env + 10) /\
  (forall k,
      k < regenThreshold s ->
      let sk := correctRun env (take k os) s in
      phase sk = phase s /\ lives sk = lives s /\
      correctSinceLastRegen sk = k /\
      livesRegenerated sk = livesRegenerated s /\
      regenThreshold sk = regenThreshold s) /\
  (let s' := correctRun env os s in
   lives s' = (lives s + 1)%Z /\ correctSinceLastRegen s' = 0 /\
   livesRegenerated s' = livesRegenerated s + 1 /\
   regenThreshold s' = regenThreshold s) /\
  (forall k o,
      k < regenThreshold s ->
      let sk := correctRun env (take k os) s in
      let s' := submitAnswer env false o sk in
      correctSinceLastRegen sk = k /\
      correctSinceLastRegen s' = 0 /\
      livesRegenerated s' = livesRegenerated s /\
      lives s' = (lives s - 1)%Z /\
      regenThreshold s' = regenThreshold s).
Proof.
  intros Hreach Hregen Hbelow Hzero Hlen Hidx.
  pose proof (reachable_regenThreshold env s Hreach) as Hthr.
  pose proof (calculateRegenThreshold_bounds (totalQuestions env)) as Hb.
  assert (forall k,
             k < regenThreshold s ->
             let sk := correctRun env (take k os) s in
             phase sk = phase s /\ lives sk = lives s /\
             maxLives sk = maxLives s /\
             regenThreshold sk = regenThreshold s /\
             correctSinceLastRegen sk = k /\
             livesRegenerated sk = livesRegenerated s /\
             correctAnswers sk = correctAnswers s + k /\
             currentIndex sk <= currentIndex s + k /\
             length (questionQueue sk) = length (questionQueue s)) as Hrun.
  { intros k Hk.
    pose proof (correctRun_counting env (take k os) s Hregen) as Hcnt.
    rewrite length_take, Hzero in Hcnt.
    replace (k `min` length os) with k in Hcnt by lia.
    apply Hcnt; lia. }
  split; [by rewrite Hthr|]. split; [apply ceilTenth_spec|].
  split; [|split].
  - intros k Hk. destruct (Hrun k Hk) as (? & ? & ? & ? & ? & ? & _).
    done.
  - (* the last of the answers *)
    destruct (Hrun (regenThreshold s - 1)) as
      (Hp & Hl & Hm & Ht & Hr & Hg & Hca & Hi & Hq); [lia|].
    rewrite <- (take_drop (regenThreshold s - 1) os), correctRun_app.
    set (sk := correctRun env (take (regenThreshold s - 1) os) s) in *.
    destruct (drop (regenThreshold s - 1) os) as [|o rest] eqn:Hdrop.
    { apply (f_equal length) in Hdrop. rewrite length_drop in Hdrop.
      simpl in Hdrop. lia. }
    assert (rest = []) as ->.
    { apply (f_equal length) in Hdrop. rewrite length_drop in Hdrop.
      simpl in Hdrop. apply nil_length_inv. lia. }
    simpl.
    destruct (lookup_lt_is_Some_2 (questionQueue sk) (currentIndex sk))
      as [q Hqk]; [lia|].
    assert (regenCounts env sk = true) as Hcounts.
    { unfold regenCounts. rewrite Hregen, Hl, Hm.
      bool_cases; (done || lia). }
    assert (regenFires env sk = true) as Hfires.
    { unfold regenFires. rewrite Hcounts, Ht, Hr.
      bool_cases; (done || lia). }
    rewrite (submit_lives _ _ _ _ _ Hqk),
      (submit_correctSinceLastRegen _ _ _ _ _ Hqk),
      (submit_livesRegenerated _ _ _ _ _ Hqk),
      (submit_regenThreshold _ _ _ _ _ Hqk), Hfires, Hcounts.
    assert ((regenThreshold sk <=? correctSinceLastRegen sk + 1) = true) as ->
      by (apply Nat.leb_le; lia).
    simpl. repeat split; lia.
  - intros k o Hk sk s'. subst s'.
    destruct (Hrun k Hk) as (Hp & Hl & Hm & Ht & Hr & Hg & Hca & Hi & Hq).
    fold sk in Hp, Hl, Hm, Ht, Hr, Hg, Hca, Hi, Hq.
    destruct (lookup_lt_is_Some_2 (questionQueue sk) (currentIndex sk))
      as [q Hqk]; [lia|].
    rewrite (submit_correctSinceLastRegen _ _ _ _ _ Hqk),
      (submit_livesRegenerated _ _ _ _ _ Hqk),
      (submit_lives _ _ _ _ _ Hqk),
      (submit_regenThreshold _ _ _ _ _ Hqk).
    simpl. repeat split; (done || lia).
Qed.

Lemma regeneration_at_threshold_witness :
  regenThreshold s100 = 10 /\
  lives s100 = 2%Z /\
  lives (correctRun env100 tenAnswers s100) = 3%Z /\
  correctSinceLastRegen (correctRun env100 tenAnswers s100) = 0 /\
  livesRegenerated (correctRun env100 tenAnswers s100) = 1 /\
  correctSinceLastRegen (correctRun env100 (take 3 tenAnswers) s100) = 3 /\
  correctSinceLastRegen
    (submitAnswer env100 false (orc 3000 2)
       (correctRun env100 (take 3 tenAnswers) s100)) = 0.
Proof.
  destruct (regeneration_at_threshold env100 s100 tenAnswers) as
    (Hthr & _ & _ & (Hl & Hr & Hg & _) & Hwrong).
  - apply reachable_s100.
  - vm_compute. reflexivity.
  - vm_compute. reflexivity.
  - vm_compute. reflexivity.
  - vm_compute. reflexivity.
  - vm_compute. lia.
  - destruct (Hwrong 3 (orc 3000 2)) as (Hthree & Hreset & _).
    { rewrite Hthr. vm_compute. lia. }
    rewrite Hl, Hr, Hg, Hthr.
    split; [vm_compute; reflexivity|]. split; [vm_compute; reflexivity|].
    split; [vm_compute; reflexivity|]. split; [reflexivity|].
    split; [reflexivity|]. split; [exact Hthree | exact Hreset].
Defined.

(** ** C7: accuracy *)

Lemma reachable_results_stats env s :
  reachable env s -> phase s = results ->
  exists st,
    sessionStats s = Some st /\
    SessionStats.correctAnswers st = correctAnswers s /\
    SessionStats.wrongAnswers st = wrongAnswers s /\
    SessionStats.accuracy st
      = accuracyOf (correctAnswers s) (wrongAnswers s).
Proof.
  intros [held Hsess] Hphase.
  destruct (session_shapeInv env held s Hsess) as (_ & Hheld & Hinv).
  destruct (Hheld Hphase) as [kept ->].
  by destruct Hinv as [_ Hstats].
Qed.

(** C7.  The statistics of every ended session carry the counts of correct
    and wrong answers of that session, and their accuracy is the correct
    count divided by the sum of both; [endGame] called with both counts at
    zero yields the accuracy 0. *)
Theorem accuracy_of_result env s :
  reachable env s -> phase s = results ->
  (exists st,
      sessionStats s = Some st /\
      SessionStats.correctAnswers st = correctAnswers s /\
      SessionStats.wrongAnswers st = wrongAnswers s /\
      (0 < correctAnswers s + wrongAnswers s ->
       SessionStats.accuracy st
         = (inject_Z (Z.of_nat (correctAnswers s))
            / inject_Z (Z.of_nat (correctAnswers s + wrongAnswers s)))%Q) /\
      (correctAnswers s + wrongAnswers s = 0 ->
       SessionStats.accuracy st = 0%Q)) /\
  (forall o r completed actualLives questionsCompleted best current p,
      SessionStats.accuracy
        <$> sessionStats
              (endGame env o r completed actualLives 0 0 questionsCompleted
                 best current p)
      = Some 0%Q).
Proof.
  intros Hreach Hphase. split; [|done].
  destruct (reachable_results_stats env s Hreach Hphase)
    as (st & Hst & Hc & Hw & Hacc).
  exists st. repeat split; try done.
  - intros Hpos. rewrite Hacc. unfold accuracyOf.
    by destruct (Nat.ltb_spec 0 (correctAnswers s + wrongAnswers s)); [|lia].
  - intros Hzero. rewrite Hacc. unfold accuracyOf. by rewrite Hzero.
Qed.

Lemma accuracy_of_result_witness :
  SessionStats.accuracy <$> sessionStats sABend = Some (2 # 3)%Q.
Proof.
  destruct (accuracy_of_result envAB sABend reachable_sABend) as
    [(st & Hst & _ & _ & Hacc & _) _].
  - vm_compute. reflexivity.
  - rewrite Hst. simpl. f_equal. rewrite Hacc.
    + vm_compute. reflexivity.
    + vm_compute. lia.
Defined.

(** ** C8: answer times *)

Lemma validTimes_positive times : Forall (fun t => (0 < t)%Z) (validTimes times).
Proof.
  unfold validTimes. apply Forall_forall. intros t Ht.
  by apply list_elem_of_filter in Ht as [? _].
Qed.

(** C8, as amended.  Every answer to a current question, the first of a
    session included, records the time since the previous reading of the
    clock (the start, for the first answer) when that time is positive and
    the previous reading was set; the reading is then moved to now.  The
    first answer of a session started at a positive time and given later
    records the time since the start.  The timing statistics of an ending
    answer are taken over the positive entries of the recorded times. *)
Theorem answer_times_recorded env isCorrect o s q :
  questionQueue s !! currentIndex s = Some q ->
  let s' := submitAnswer env isCorrect o s in
  answerTimes s' =
    (if (0 <? lastAnswerTime s)%Z && (0 <? now o - lastAnswerTime s)%Z
     then answerTimes s ++ [(now o - lastAnswerTime s)%Z]
     else answerTimes s)%list /\
  lastAnswerTime s' = now o /\
  (forall draw startNow s0,
      s = handleStart env draw startNow s0 ->
      (0 < startNow < now o)%Z ->
      answerTimes s' = [(now o - startNow)%Z]) /\
  (terminates env isCorrect s = true ->
   exists st,
     sessionStats s' = Some st /\
     let valid := validTimes (answerTimes s) in
     Forall (fun t => (0 < t)%Z) valid /\
     SessionStats.averageTimePerQuestionMs st
       = (if 0 <? length valid
          then (inject_Z (sumZ valid)
                / inject_Z (Z.of_nat (length valid)))%Q
          else 0%Q) /\
     SessionStats.fastestAnswerMs st
       = (if 0 <? length valid then minOf valid else 0%Z) /\
     SessionStats.slowestAnswerMs st
       = (if 0 <? length valid then maxOf valid else 0%Z)).
Proof.
  intros Hq s'. subst s'.
  split; [apply (submit_answerTimes _ _ _ _ _ Hq)|].
  split; [apply (submit_lastAnswerTime _ _ _ _ _ Hq)|].
  split.
  - intros draw startNow s0 -> Hclock.
    rewrite (submit_answerTimes _ _ _ _ _ Hq). simpl.
    destruct (Z.ltb_spec 0 startNow); [|lia].
    destruct (Z.ltb_spec 0 (now o - startNow)); [done | lia].
  - intros Hterm.
    destruct (submit_sessionStats_end env isCorrect o s q Hq Hterm)
      as (st & Hst & _ & _ & _ & _ & Havg & Hmin & Hmax).
    exists st. split; [done|]. simpl.
    split; [apply validTimes_positive | done].
Qed.

Lemma answer_times_recorded_witness :
  answerTimes sAB1 = [500%Z] /\ lastAnswerTime sAB1 = 1500%Z.
Proof.
  destruct (answer_times_recorded envAB true (orc 1500 1) sAB0
              {| q_item := prim "a"; q_index := 0; q_repetitionNumber := 1 |})
    as (_ & Hlast & Hfirst & _).
  - vm_compute. reflexivity.
  - split; [|exact Hlast].
    apply (Hfirst noShuffle 1000%Z initialState eq_refl).
    simpl. lia.
Defined.

(** The first answer of a session is timed from the start: [handleStart]
    sets the previous reading to the starting time. *)
Lemma first_answer_is_recorded :
  ~ (forall env draw startNow s0 isCorrect o,
        (0 < startNow < now o)%Z ->
        answerTimes
          (submitAnswer env isCorrect o (handleStart env draw startNow s0))
        = []).
Proof.
  intros Hclaim.
  specialize (Hclaim envAB noShuffle 1000%Z initialState true (orc 1500 1)
                ltac:(simpl; lia)).
  vm_compute in Hclaim. discriminate Hclaim.
Qed.

(** ** C9: the current question *)

(** With at most three starting lives the cap is never met with a life to
    spare: before any answer has called [endGame] the index is inside the
    queue. *)
Lemma three_lives_keep_a_question env s :
  (1 <= d_lives (diffConfig env) <= 3)%Z ->
  1 <= repetitions env ->
  session env None s ->
  currentIndex s < length (questionQueue s).
Proof.
  intros [Hlives Hmax] Hreps Hsess.
  assert (reachable env s) as Hreach by by exists None.
  destruct (reachable_livesInv env s Hreach) as (_ & _ & Hliv & Hreg & Hthr).
  destruct (session_progress env Hlives Hreps None s Hsess)
    as (_ & Hpos & Hc & -> & ->).
  pose proof (calculateRegenThreshold_bounds (totalQuestions env)).
  assert (5 * livesRegenerated s <= livesRegenerated s * regenThreshold s)
    by nia.
  lia.
Qed.


(** ** C10: no current question *)

(** C10.  Without a current question [submitAnswer] returns the state it
    was given: nothing is recorded, counted or ended. *)
Theorem submitAnswer_without_question env isCorrect o s :
  questionQueue s !! currentIndex s = None ->
  submitAnswer env isCorrect o s = s.
Proof. apply submitAnswer_no_question. Qed.

Lemma submitAnswer_without_question_witness :
  submitAnswer envAB true (orc 1500 1) initialState = initialState.
Proof.
  apply (submitAnswer_without_question envAB true (orc 1500 1) initialState).
  vm_compute. reflexivity.
Defined.

(** * More of the component *)

(** ** The queue as a rearrangement *)

Lemma insert_swap_Permutation (l : list GauntletQuestion) i j a b :
  l !! i = Some a -> l !! j = Some b ->
  <[j := a]> (<[i := b]> l) ≡ₚ l.
Proof.
  assert (forall (l : list GauntletQuestion) k x y,
             l !! k = Some y -> y :: <[k := x]> l ≡ₚ x :: l) as Hone.
  { clear. induction l as [|z l IH]; intros [|k] x y Hk; simplify_eq/=.
    - apply Permutation_swap.
    - transitivity (z :: y :: <[k := x]> l); [apply Permutation_swap|].
      transitivity (z :: x :: l); [|apply Permutation_swap].
      f_equiv. by apply IH. }
  revert i j. induction l as [|z l IH]; intros [|i] [|j] Ha Hb;
    simplify_eq/=; try done.
  - by apply Hone.
  - by apply Hone.
  - f_equiv. by apply IH.
Qed.

Lemma swap_Permutation queue i j : swap queue i j ≡ₚ queue.
Proof.
  unfold swap.
  destruct (queue !! i) as [a|] eqn:Ha; [|done].
  destruct (queue !! j) as [b|] eqn:Hb; [|done].
  by apply insert_swap_Permutation.
Qed.

Lemma fisherYates_Permutation draw queue : fisherYates draw queue ≡ₚ queue.
Proof.
  unfold fisherYates. generalize (reverse (seq 1 (length queue - 1))).
  intros l. revert queue. induction l as [|i l IH]; intros queue; simpl.
  - done.
  - by rewrite IH, swap_Permutation.
Qed.

Lemma stabilizeStep_Permutation queue i : stabilizeStep queue i ≡ₚ queue.
Proof.
  unfold stabilizeStep. repeat case_match; try done.
  apply swap_Permutation.
Qed.

Lemma stabilize_Permutation queue :
  stabilizeQueueNoImmediateRepeats queue ≡ₚ queue.
Proof.
  unfold stabilizeQueueNoImmediateRepeats.
  generalize (seq 0 (length queue - 1)).
  intros l. revert queue. induction l as [|i l IH]; intros queue; simpl.
  - done.
  - by rewrite IH, stabilizeStep_Permutation.
Qed.

Lemma setIndices_items queue : map q_item (setIndices queue) = map q_item queue.
Proof.
  unfold setIndices. apply list_eq. intros i.
  rewrite !list_lookup_fmap, list_lookup_imap.
  by destruct (queue !! i).
Qed.

Lemma crossProduct_items items repetitions :
  map q_item (crossProduct items repetitions)
  = flat_map (replicate repetitions) items.
Proof.
  assert (forall x n k,
             map q_item
               (map (fun rep => {| q_item := x; q_index := 0;
                                   q_repetitionNumber := rep |}) (seq k n))
             = replicate n x) as Hrow.
  { intros x n. induction n as [|n IHn]; intros k; simpl; [done|].
    by rewrite IHn. }
  unfold crossProduct. induction items as [|x items IH]; simpl; [done|].
  by rewrite map_app, IH, Hrow.
Qed.

Lemma generateQuestionQueue_items draw items repetitions :
  map q_item (generateQuestionQueue draw items repetitions)
  ≡ₚ flat_map (replicate repetitions) items.
Proof.
  unfold generateQuestionQueue.
  rewrite setIndices_items, <- crossProduct_items.
  by rewrite stabilize_Permutation, fisherYates_Permutation.
Qed.

(** X1.  Whatever the shuffle draws, the initial queue holds the items of
    the cross product and nothing else: every item, [repetitions] times.  Its
    length is items times repetitions, every entry carries its position as
    index, and the repetition numbers run from 1 to [repetitions]. *)
Theorem initial_queue_is_rearranged_cross_product draw items repetitions :
  let queue := generateQuestionQueue draw items repetitions in
  map q_item queue ≡ₚ flat_map (replicate repetitions) items /\
  length queue = length items * repetitions /\
  (forall i q, queue !! i = Some q ->
     q_index q = i /\ 1 <= q_repetitionNumber q <= repetitions).
Proof.
  intros queue. subst queue. split; [|split].
  - apply generateQuestionQueue_items.
  - apply length_generateQuestionQueue.
  - intros i q Hq. unfold generateQuestionQueue in Hq.
    rewrite setIndices_lookup in Hq.
    destruct (_ !! i) as [q0|] eqn:Hq0; [|done].
    simpl in Hq. injection Hq as <-. simpl. split; [done|].
    assert (q0 ∈ crossProduct items repetitions) as Hin.
    { rewrite <- (fisherYates_Permutation draw), <- stabilize_Permutation.
      by eapply list_elem_of_lookup_2. }
    unfold crossProduct in Hin.
    apply list_elem_of_In, in_flat_map in Hin as (x & _ & Hin).
    apply in_map_iff in Hin as (rep & <- & Hrep).
    apply in_seq in Hrep. simpl. lia.
Qed.

(** ** The stabilization pass, repeated *)

(** A pair that repeats with nothing different after it has no swap
    partner; a settled queue is left alone by every iteration. *)
Lemma stabilizeStep_settled_id queue i :
  settledBelow (length queue - 1) queue -> stabilizeStep queue i = queue.
Proof.
  intros Hset. unfold stabilizeStep.
  destruct (queue !! i) as [cur|] eqn:Hcur; [|done].
  destruct (queue !! (i + 1)) as [next|] eqn:Hnext; [|done].
  simpl. case_decide as Hsame; [|done].
  destruct (findSwapIndex _ _ _) as [n|] eqn:Hfind; [|done].
  exfalso.
  destruct (findSwapIndex_Some _ _ _ _ Hfind) as (Hle & Hlt & e & He & Hne).
  apply Hne.
  assert (i < length queue - 1) as Hi
    by (apply lookup_lt_Some in Hnext; lia).
  apply (Hset i cur next Hi Hcur Hnext Hsame n e); [lia | done].
Qed.

Lemma foldl_stabilizeStep_settled_id l queue :
  settledBelow (length queue - 1) queue -> foldl stabilizeStep queue l = queue.
Proof.
  intros Hset. induction l as [|i l IH]; simpl; [done|].
  by rewrite stabilizeStep_settled_id.
Qed.

Lemma stabilize_settles_all queue :
  let queue' := stabilizeQueueNoImmediateRepeats queue in
  settledBelow (length queue' - 1) queue'.
Proof.
  intros queue'. subst queue'.
  rewrite length_stabilizeQueueNoImmediateRepeats.
  apply (foldl_stabilizeStep_settles (length queue - 1) 0 queue).
  intros ? ? ? ?; lia.
Qed.

(** X2.  The stabilization pass is idempotent, and a queue without a
    repeating neighbour pair is returned as it is. *)
Theorem stabilize_is_idempotent queue :
  stabilizeQueueNoImmediateRepeats (stabilizeQueueNoImmediateRepeats queue)
  = stabilizeQueueNoImmediateRepeats queue /\
  ((forall i, ~ repeatAt queue i) ->
   stabilizeQueueNoImmediateRepeats queue = queue).
Proof.
  split.
  - unfold stabilizeQueueNoImmediateRepeats at 1.
    apply foldl_stabilizeStep_settled_id, stabilize_settles_all.
  - intros Hfree. unfold stabilizeQueueNoImmediateRepeats.
    apply foldl_stabilizeStep_settled_id.
    intros i a b _ Ha Hb Hab. destruct (Hfree i). by exists a, b.
Qed.

(** ** The look-ahead swap, repeated *)

(** The look-ahead either leaves the queue or swaps the next slot with a
    later entry of another item. *)
Lemma ensureNextQuestionIsDifferent_cases queue i :
  ensureNextQuestionIsDifferent queue i = queue \/
  exists cur n e,
    queue !! i = Some cur /\ i + 1 < length queue /\
    i + 2 <= n /\ n < length queue /\ queue !! n = Some e /\
    questionId e <> questionId cur /\
    ensureNextQuestionIsDifferent queue i = swap queue (i + 1) n.
Proof.
  unfold ensureNextQuestionIsDifferent.
  destruct (Nat.leb_spec (length queue) (i + 1)); [by left|].
  destruct (queue !! i) as [cur|] eqn:Hcur; [|by left].
  destruct (queue !! (i + 1)) as [next|] eqn:Hnext; [|by left].
  simpl. case_decide as Hsame; [|by left].
  destruct (findSwapIndex _ _ _) as [n|] eqn:Hfind; [|by left].
  destruct (findSwapIndex_Some _ _ _ _ Hfind) as (Hle & Hlt & e & He & Hne).
  right. exists cur, n, e. repeat split; (done || lia).
Qed.

Lemma ensureNextQuestionIsDifferent_Permutation queue i :
  ensureNextQuestionIsDifferent queue i ≡ₚ queue.
Proof.
  destruct (ensureNextQuestionIsDifferent_cases queue i)
    as [->|(cur & n & e & _ & _ & _ & _ & _ & _ & ->)]; [reflexivity|].
  apply swap_Permutation.
Qed.

(** X3.  The look-ahead swap rearranges the queue without adding or
    dropping an entry, leaves the answered slot and everything before it in
    place, and applied a second time changes nothing. *)
Theorem look_ahead_swap_is_stable queue i :
  ensureNextQuestionIsDifferent queue i ≡ₚ queue /\
  ensureNextQuestionIsDifferent (ensureNextQuestionIsDifferent queue i) i
  = ensureNextQuestionIsDifferent queue i /\
  (forall k, k <= i ->
     ensureNextQuestionIsDifferent queue i !! k = queue !! k).
Proof.
  split; [|split].
  - apply ensureNextQuestionIsDifferent_Permutation.
  - destruct (ensureNextQuestionIsDifferent_cases queue i)
      as [Heq|(cur & n & e & Hcur & Hi & Hle & Hlt & He & Hne & ->)];
      [by rewrite !Heq|].
    unfold ensureNextQuestionIsDifferent.
    rewrite length_swap.
    destruct (Nat.leb_spec (length queue) (i + 1)); [lia|].
    rewrite !swap_lookup by done.
    repeat case_decide; try lia.
    rewrite Hcur, He. simpl. case_decide; [congruence | done].
  - intros k Hk. by apply ensureNextQuestionIsDifferent_lookup_le.
Qed.

(** ** More fields of the transition *)

Section MoreFields.
Context (env : Setup) (isCorrect : bool) (o : Oracle) (s : State)
        (q : GauntletQuestion).
Hypothesis Hq : questionQueue s !! currentIndex s = Some q.

Let s' := submitAnswer env isCorrect o s.

Lemma submit_currentStreak :
  currentStreak s' = if isCorrect then currentStreak s + 1 else 0.
Proof. subst s'. revert Hq. submit_cases. Qed.

Lemma submit_bestStreak :
  bestStreak s' =
    if isCorrect then Nat.max (bestStreak s) (currentStreak s + 1)
    else bestStreak s.
Proof. subst s'. revert Hq. submit_cases. Qed.

Lemma submit_characterStats :
  characterStats s' =
    <[questionId q :=
        if isCorrect
        then {| cs_correct :=
                  cs_correct (statOf (characterStats s) (questionId q)) + 1;
                cs_wrong :=
                  cs_wrong (statOf (characterStats s) (questionId q)) |}
        else {| cs_correct :=
                  cs_correct (statOf (characterStats s) (questionId q));
                cs_wrong :=
                  cs_wrong (statOf (characterStats s) (questionId q)) + 1 |}]>
      (characterStats s).
Proof.
  subst s'. revert Hq. unfold questionId.
  unfold submitAnswer, advanceToNextQuestion, endGame, recordAnswerTime.
  intros ->. repeat case_match; simpl in *; done.
Qed.

(** The statistics of an ending answer are those [endGame] computes from
    the rendered state and the counters handed to it. *)
Lemma submit_sessionStats_endGame :
  terminates env isCorrect s = true ->
  sessionStats s' =
    sessionStats
      (endGame env o s
         (isCorrect && negb (lives s <=? 0)%Z)
         (if isCorrect then lives s else (lives s - 1)%Z)
         (correctAnswers s + (if isCorrect then 1 else 0))
         (wrongAnswers s + (if isCorrect then 0 else 1))
         (currentIndex s + 1)
         (if isCorrect then Nat.max (bestStreak s) (currentStreak s + 1)
          else bestStreak s)
         (if isCorrect then currentStreak s + 1 else 0)
         s).
Proof.
  subst s'. revert Hq.
  unfold submitAnswer, advanceToNextQuestion, terminates.
  intros ->. destruct isCorrect.
  - intros Hterm.
    destruct (lives s <=? 0)%Z eqn:Hl; simpl in *.
    + by rewrite Nat.add_0_r.
    + rewrite Hterm. by rewrite Nat.add_0_r.
  - intros ->. simpl. by rewrite Nat.add_0_r.
Qed.
End MoreFields.

(** ** Streaks *)

Lemma reachable_streaks env s :
  reachable env s ->
  currentStreak s <= bestStreak s /\ bestStreak s <= correctAnswers s.
Proof.
  revert s. apply reachable_induction.
  - intros draw startNow s0 _ _. simpl. lia.
  - intros b o s q _ [IH1 IH2] _ Hq _.
    rewrite (submit_currentStreak _ _ _ _ _ Hq),
      (submit_bestStreak _ _ _ _ _ Hq), (submit_correctAnswers _ _ _ _ _ Hq).
    destruct b; lia.
  - done.
Qed.

(** X4.  In every reachable state the current streak is at most the best
    streak, which is at most the number of correct answers; a wrong answer
    sets the current streak to zero and keeps the best. *)
Theorem streaks_are_ordered env s :
  reachable env s ->
  currentStreak s <= bestStreak s /\ bestStreak s <= correctAnswers s /\
  (forall o q,
      questionQueue s !! currentIndex s = Some q ->
      let s' := submitAnswer env false o s in
      currentStreak s' = 0 /\ bestStreak s' = bestStreak s).
Proof.
  intros Hreach.
  destruct (reachable_streaks env s Hreach) as [Hcb Hbc].
  split; [done|]. split; [done|].
  intros o q Hq s'. subst s'.
  by rewrite (submit_currentStreak _ _ _ _ _ Hq),
    (submit_bestStreak _ _ _ _ _ Hq).
Qed.

(** ** Recorded times *)

(** X5.  Every recorded answer time of a reachable state is positive, so
    the filter of [endGame] drops none of them; and there are at most as
    many as answers given. *)
Theorem recorded_times_are_positive env s :
  reachable env s ->
  Forall (fun t => (0 < t)%Z) (answerTimes s) /\
  validTimes (answerTimes s) = answerTimes s /\
  length (answerTimes s) <= correctAnswers s + wrongAnswers s.
Proof.
  intros Hreach.
  assert (Forall (fun t => (0 < t)%Z) (answerTimes s) /\
          length (answerTimes s) <= correctAnswers s + wrongAnswers s)
    as [Hpos Hlen].
  { revert s Hreach. apply reachable_induction; [| |done].
    - intros draw startNow s0 _ _. simpl. split; [constructor | lia].
    - intros b o s q _ [IH1 IH2] _ Hq _.
      rewrite (submit_answerTimes _ _ _ _ _ Hq),
        (submit_correctAnswers _ _ _ _ _ Hq),
        (submit_wrongAnswers _ _ _ _ _ Hq).
      destruct (Z.ltb_spec 0 (lastAnswerTime s));
        destruct (Z.ltb_spec 0 (now o - lastAnswerTime s)); simpl;
        (split; [|rewrite ?length_app; simpl; destruct b; lia]); try done.
      apply Forall_app. split; [done|]. by repeat constructor. }
  split; [done|]. split; [|done].
  unfold validTimes. clear Hlen.
  induction Hpos as [|t l Ht Hl IH]; [done|].
  rewrite filter_cons_True by done. by rewrite IH.
Qed.

(** ** Where the entries come from *)

Lemma elem_of_splice_insert pos x queue e :
  e ∈ splice_insert pos x queue <-> e = x \/ e ∈ queue.
Proof.
  unfold splice_insert.
  rewrite elem_of_app, elem_of_cons.
  assert (e ∈ queue <-> e ∈ take pos queue \/ e ∈ drop pos queue) as ->
    by (by rewrite <- elem_of_app, take_drop).
  tauto.
Qed.

Lemma elem_of_requeue env o s e :
  e ∈ requeue env o s -> e ∈ questionQueue s.
Proof.
  unfold requeue.
  destruct (length (questionQueue s) <? totalQuestions env * 3); [|done].
  destruct (questionQueue s !! currentIndex s) as [q|] eqn:Hq; [|done].
  intros [->|He]%elem_of_splice_insert; [|done].
  by eapply list_elem_of_lookup_2.
Qed.

Lemma reachable_queue_items env s e :
  reachable env s -> e ∈ questionQueue s -> q_item e ∈ items env.
Proof.
  intros Hreach. revert e. revert s Hreach.
  apply (reachable_induction env
           (fun s => forall e, e ∈ questionQueue s -> q_item e ∈ items env)).
  - intros draw startNow s0 _ _ e He. simpl in He.
    assert (q_item e
              ∈ map q_item
                  (generateQuestionQueue draw (items env) (repetitions env)))
      as Hin by (by apply list_elem_of_fmap_2).
    rewrite generateQuestionQueue_items in Hin.
    apply list_elem_of_In, in_flat_map in Hin as (x & Hx & Hin).
    apply list_elem_of_In, elem_of_replicate in Hin as [-> _].
    by apply list_elem_of_In.
  - intros b o s q _ IH _ Hq _ e He.
    rewrite (submit_questionQueue _ _ _ _ _ Hq) in He.
    destruct (terminates env b s); [by apply IH|].
    rewrite ensureNextQuestionIsDifferent_Permutation in He.
    destruct b; [by apply IH|].
    by apply IH, (elem_of_requeue env o).
  - done.
Qed.

(** X6.  Every entry of the queue of a reachable state, re-queued copies
    included, is one of the configured items. *)
Theorem queue_entries_are_items env s e :
  reachable env s -> e ∈ questionQueue s ->
  q_item e ∈ items env /\
  exists item, item ∈ items env /\ getQuestionItemId item = questionId e.
Proof.
  intros Hreach He.
  pose proof (reachable_queue_items env s e Hreach He) as Hin.
  split; [done|]. by exists (q_item e).
Qed.

(** ** Per-item tallies *)

Lemma tally_insert (f : CharStat -> nat) (m : gmap string CharStat) k x :
  map_fold (fun _ st acc => f st + acc) 0 (<[k := x]> m)
  + from_option f 0 (m !! k)
  = map_fold (fun _ st acc => f st + acc) 0 m + f x.
Proof.
  destruct (m !! k) as [y|] eqn:Hk; simpl.
  - rewrite <- (insert_delete_eq m k x).
    rewrite <- (insert_delete_id m k y Hk) at 2.
    rewrite !map_fold_insert_L; [lia|intros; lia|apply lookup_delete_eq
                                |intros; lia|apply lookup_delete_eq].
  - rewrite map_fold_insert_L; [lia|intros; lia|done].
Qed.

(** X7.  In every reachable state the per-item tallies add up to the
    counters: the correct tallies to [correctAnswers], the wrong ones to
    [wrongAnswers].  Every key is the identity of a configured item and has at
    least one answer. *)
Theorem tallies_add_up env s :
  reachable env s ->
  tallyCorrect (characterStats s) = correctAnswers s /\
  tallyWrong (characterStats s) = wrongAnswers s /\
  (forall k st,
      characterStats s !! k = Some st ->
      1 <= cs_correct st + cs_wrong st /\
      exists item, item ∈ items env /\ getQuestionItemId item = k).
Proof.
  revert s. apply reachable_induction; [| |done].
  - intros draw startNow s0 _ _. simpl. unfold tallyCorrect, tallyWrong.
    rewrite !map_fold_empty. repeat split; try done.
  - intros b o s q Hreach (IHc & IHw & IHk) _ Hq _.
    rewrite (submit_characterStats _ _ _ _ _ Hq),
      (submit_correctAnswers _ _ _ _ _ Hq), (submit_wrongAnswers _ _ _ _ _ Hq).
    unfold tallyCorrect, tallyWrong in *.
    pose proof (tally_insert cs_correct (characterStats s) (questionId q))
      as Hc.
    pose proof (tally_insert cs_wrong (characterStats s) (questionId q))
      as Hw.
    unfold statOf.
    split; [|split].
    + match goal with
      | |- context [<[_ := ?x]> _] => specialize (Hc x)
      end.
      destruct (characterStats s !! questionId q), b; simpl in *; lia.
    + match goal with
      | |- context [<[_ := ?x]> _] => specialize (Hw x)
      end.
      destruct (characterStats s !! questionId q), b; simpl in *; lia.
    + intros k st. rewrite lookup_insert. case_decide as Hk.
      * intros [= <-]. subst k. split; [destruct b; simpl; lia|].
        exists (q_item q). split; [|done].
        apply (reachable_queue_items env s q Hreach).
        by eapply list_elem_of_lookup_2.
      * apply IHk.
Qed.

(** ** What an answer leaves in place *)

(** X8.  An answer never moves the index back nor shortens the queue: each
    grows by at most one, and the answered slot and all slots before it keep
    their entries. *)
Theorem answers_only_move_forward env isCorrect o s :
  (isCorrect = false -> validDraw s o) ->
  let s' := submitAnswer env isCorrect o s in
  currentIndex s <= currentIndex s' <= currentIndex s + 1 /\
  length (questionQueue s) <= length (questionQueue s')
    <= length (questionQueue s) + 1 /\
  (forall k, k <= currentIndex s ->
     questionQueue s' !! k = questionQueue s !! k).
Proof.
  intros Hdraw s'. subst s'.
  destruct (questionQueue s !! currentIndex s) as [q|] eqn:Hq;
    [|rewrite submitAnswer_no_question by done;
      split; [lia|split; [lia|done]]].
  rewrite (submit_currentIndex _ _ _ _ _ Hq),
    (submit_questionQueue _ _ _ _ _ Hq).
  destruct (terminates env isCorrect s); [split; [lia|split; [lia|done]]|].
  rewrite length_ensureNextQuestionIsDifferent.
  destruct isCorrect.
  - split; [lia|]. split; [lia|].
    intros k Hk. by apply ensureNextQuestionIsDifferent_lookup_le.
  - rewrite (length_requeue _ _ _ _ Hq).
    split; [lia|]. split; [case_match; lia|].
    intros k Hk. rewrite ensureNextQuestionIsDifferent_lookup_le by done.
    apply requeue_lookup_le; [by apply Hdraw | done].
Qed.

(** ** The re-queued copy *)

Lemma splice_insert_lookup_at pos x queue :
  pos <= length queue -> splice_insert pos x queue !! pos = Some x.
Proof.
  intros Hpos. unfold splice_insert.
  rewrite lookup_app_r by (rewrite length_take; lia).
  rewrite length_take. by replace (pos - pos `min` length queue) with 0 by lia.
Qed.

(** X9.  Below the cap, the copy of a wrongly answered entry is spliced in
    one to five slots ahead, at least two when two or more entries remain and
    never past the end; when the session goes on, the copy is still ahead of
    the answered slot after the look-ahead swap. *)
Theorem requeued_copy_is_ahead env o s q :
  questionQueue s !! currentIndex s = Some q ->
  validDraw s o ->
  length (questionQueue s) < totalQuestions env * 3 ->
  let remaining := length (questionQueue s) - (currentIndex s + 1) in
  (exists off,
      1 <= off <= 5 /\ (2 <= remaining -> 2 <= off) /\
      off <= Nat.max 1 remaining /\
      requeue env o s !! (currentIndex s + off) = Some q) /\
  (terminates env false s = false ->
   exists j,
     currentIndex s < j /\
     questionQueue (submitAnswer env false o s) !! j = Some q).
Proof.
  intros Hq Hdraw Hcap remaining.
  assert (exists off,
             1 <= off <= 5 /\ (2 <= remaining -> 2 <= off) /\
             off <= Nat.max 1 remaining /\
             requeue env o s !! (currentIndex s + off) = Some q)
    as (off & Hoff & Htwo & Hmax & Hcopy).
  { unfold requeue. rewrite Hq.
    destruct (Nat.ltb_spec (length (questionQueue s))
                (totalQuestions env * 3)); [|lia].
    fold remaining. unfold validDraw in Hdraw. simpl in Hdraw.
    fold remaining in Hdraw. revert Hdraw.
    unfold maxOffsetOf. unfold minOffsetOf.
    pose proof (lookup_lt_Some _ _ _ Hq) as Hlt.
    destruct (Nat.ltb_spec 0 remaining) as [Hrem|Hrem].
    - intros Hdraw. specialize (Hdraw Hrem). revert Hdraw.
      destruct (Nat.ltb_spec 1 remaining); intros Hdraw; simpl in Hdraw;
        (exists (rnd o); split; [lia|]; split; [lia|]; split; [lia|];
         apply splice_insert_lookup_at; subst remaining; lia).
    - intros _. exists 1. split; [lia|]. split; [lia|]. split; [lia|].
      apply splice_insert_lookup_at. subst remaining. lia. }
  split; [by exists off|].
  intros Hterm.
  rewrite (submit_questionQueue _ _ _ _ _ Hq), Hterm.
  destruct (ensureNextQuestionIsDifferent_cases (requeue env o s)
              (currentIndex s))
    as [->|(cur & n & e & _ & Hi & Hle & Hlt & _ & _ & ->)].
  - exists (currentIndex s + off). split; [lia | done].
  - destruct (decide (off = 1)) as [->|Hoff1].
    + exists n. split; [lia|].
      rewrite swap_lookup by done. by rewrite decide_True by done.
    + destruct (decide (currentIndex s + off = n)) as [Hn|Hn].
      * exists (currentIndex s + 1). split; [lia|].
        rewrite swap_lookup by done.
        rewrite decide_False by lia. rewrite decide_True by done.
        by rewrite <- Hn.
      * exists (currentIndex s + off). split; [lia|].
        rewrite swap_lookup by done.
        rewrite decide_False by done. by rewrite decide_False by lia.
Qed.

(** ** The length of a session *)

(** X10.  Every answer to a current question adds one to the sum of the
    correct and the wrong answers.  Before any answer has called [endGame],
    in a session with at least one starting life and one repetition, that
    sum is the index, and it is bounded by the target, a fifth of it for
    regenerated lives, and the starting lives; the answer that first calls
    [endGame] comes within that bound. *)
Theorem session_length_is_bounded env s :
  (1 <= d_lives (diffConfig env))%Z ->
  1 <= repetitions env ->
  session env None s ->
  (forall isCorrect o q,
      questionQueue s !! currentIndex s = Some q ->
      let s' := submitAnswer env isCorrect o s in
      correctAnswers s' + wrongAnswers s'
      = correctAnswers s + wrongAnswers s + 1) /\
  currentIndex s = correctAnswers s + wrongAnswers s /\
  (5 * Z.of_nat (correctAnswers s + wrongAnswers s) + 11
   <= 6 * Z.of_nat (totalQuestions env) + 5 * d_lives (diffConfig env))%Z.
Proof.
  intros Hlives Hreps Hsess.
  assert (reachable env s) as Hreach by by exists None.
  destruct (reachable_livesInv env s Hreach) as (_ & _ & Hliv & Hreg & Hthr).
  destruct (session_progress env Hlives Hreps None s Hsess)
    as (_ & Hpos & Hc & Hidx & _).
  split; [|split; [done|]].
  - intros b o q Hq s'. subst s'.
    rewrite (submit_correctAnswers _ _ _ _ _ Hq),
      (submit_wrongAnswers _ _ _ _ _ Hq).
    destruct b; lia.
  - pose proof (calculateRegenThreshold_bounds (totalQuestions env)).
    assert (5 * livesRegenerated s <= livesRegenerated s * regenThreshold s)
      by nia.
    lia.
Qed.

(** ** The result of a session *)

(** X11.  The statistics that an answer calling [endGame] leaves, in any
    state of a session: the starting lives are those of the difficulty row,
    the lives lost are the wrong answers, and the lives remaining do not
    pass the starting ones.  When it is the first such answer of a session
    with at least one starting life and one repetition, the lives remaining
    are not negative and the questions completed are the answers given. *)
Theorem result_life_accounting env s isCorrect o q :
  reachable env s ->
  questionQueue s !! currentIndex s = Some q ->
  terminates env isCorrect s = true ->
  exists st,
    sessionStats (submitAnswer env isCorrect o s) = Some st /\
    SessionStats.startingLives st = d_lives (diffConfig env) /\
    SessionStats.livesLost st = Z.of_nat (SessionStats.wrongAnswers st) /\
    (SessionStats.livesRemaining st <= SessionStats.startingLives st)%Z /\
    SessionStats.totalQuestions st = totalQuestions env /\
    ((1 <= d_lives (diffConfig env))%Z -> 1 <= repetitions env ->
     session env None s ->
     (0 <= SessionStats.livesRemaining st)%Z /\
     SessionStats.questionsCompleted st
     = SessionStats.correctAnswers st + SessionStats.wrongAnswers st).
Proof.
  intros Hreach Hq Hterm.
  destruct (reachable_livesInv env s Hreach) as (Hmax & Hle & Hliv & _).
  rewrite (submit_sessionStats_endGame _ _ _ _ _ Hq Hterm).
  eexists. split; [reflexivity|]. simpl.
  split; [done|]. split; [destruct isCorrect; lia|].
  split; [destruct isCorrect; lia|]. split; [done|].
  intros Hlives Hreps Hsess.
  destruct (session_progress env Hlives Hreps None s Hsess)
    as (_ & Hpos & Hc & Hidx & _).
  destruct isCorrect; split; lia.
Qed.

(** X12.  The flag that an answer calling [endGame] leaves, in a session
    with at least one starting life and one repetition: the session is
    marked completed exactly when the correct answers have met the target,
    and not completed exactly when no life remains; a completed session ends
    on a streak.  When it is the first such answer of the session, the
    correct answers do not pass the target, they equal it exactly when the
    session is completed, and the lives remaining are zero exactly when it
    is not. *)
Theorem result_completion_flag env held s isCorrect o q :
  (1 <= d_lives (diffConfig env))%Z ->
  1 <= repetitions env ->
  session env held s ->
  questionQueue s !! currentIndex s = Some q ->
  (forall kept, held = Some kept -> isCorrect = kept) ->
  terminates env isCorrect s = true ->
  exists st,
    sessionStats (submitAnswer env isCorrect o s) = Some st /\
    (SessionStats.completed st = true <->
     totalQuestions env <= SessionStats.correctAnswers st) /\
    (SessionStats.completed st = false <->
     (SessionStats.livesRemaining st <= 0)%Z) /\
    (SessionStats.completed st = true ->
     SessionStats.currentStreak st >= 1) /\
    (held = None ->
     SessionStats.correctAnswers st <= totalQuestions env /\
     (SessionStats.completed st = true <->
      SessionStats.correctAnswers st = totalQuestions env) /\
     (SessionStats.completed st = false <->
      SessionStats.livesRemaining st = 0%Z)).
Proof.
  intros Hlives Hreps Hsess Hq Hkept Hterm.
  pose proof (session_progress env Hlives Hreps held s Hsess) as Hinv.
  rewrite (submit_sessionStats_endGame _ _ _ _ _ Hq Hterm).
  eexists. split; [reflexivity|]. simpl.
  revert Hterm. unfold terminates.
  destruct held as [kept|].
  - rewrite <- (Hkept kept eq_refl) in Hinv. destruct Hinv as [Hinv _].
    destruct isCorrect; bool_cases; intros Hterm; try done;
      repeat split; intros; try done; try lia.
  - destruct Hinv as (_ & Hpos & Hc & _).
    destruct isCorrect; bool_cases; intros Hterm; try done;
      repeat split; intros; try done; try lia.
Qed.

(** ** Timing statistics *)

Lemma foldl_min_spec l : forall x,
  foldl Z.min x l ∈ x :: l /\ Forall (fun t => (foldl Z.min x l <= t)%Z) (x :: l).
Proof.
  induction l as [|y l IH]; intros x; simpl.
  - split; [apply list_elem_of_here | by repeat constructor].
  - destruct (IH (Z.min x y)) as [Hin Hall].
    apply Forall_cons in Hall as [Hxy Hall].
    split.
    + apply elem_of_cons in Hin as [Hin|Hin].
      * rewrite Hin. destruct (Z.min_spec x y) as [[_ ->]|[_ ->]].
        -- apply list_elem_of_here.
        -- apply list_elem_of_further, list_elem_of_here.
      * by do 2 apply list_elem_of_further.
    + constructor; [lia|]. constructor; [lia | done].
Qed.

Lemma foldl_max_spec l : forall x,
  foldl Z.max x l ∈ x :: l /\ Forall (fun t => (t <= foldl Z.max x l)%Z) (x :: l).
Proof.
  induction l as [|y l IH]; intros x; simpl.
  - split; [apply list_elem_of_here | by repeat constructor].
  - destruct (IH (Z.max x y)) as [Hin Hall].
    apply Forall_cons in Hall as [Hxy Hall].
    split.
    + apply elem_of_cons in Hin as [Hin|Hin].
      * rewrite Hin. destruct (Z.max_spec x y) as [[_ ->]|[_ ->]].
        -- apply list_elem_of_further, list_elem_of_here.
        -- apply list_elem_of_here.
      * by do 2 apply list_elem_of_further.
    + constructor; [lia|]. constructor; [lia | done].
Qed.

Lemma sumZ_bounds l lo hi :
  Forall (fun t => (lo <= t <= hi)%Z) l ->
  (lo * Z.of_nat (length l) <= sumZ l <= hi * Z.of_nat (length l))%Z.
Proof.
  unfold sumZ.
  assert (forall acc,
             Forall (fun t => (lo <= t <= hi)%Z) l ->
             (acc + lo * Z.of_nat (length l) <= foldl Z.add acc l
              <= acc + hi * Z.of_nat (length l))%Z) as Hgen.
  { induction l as [|x l IH]; intros acc Hall; simpl; [lia|].
    apply Forall_cons in Hall as [Hx Hall].
    specialize (IH (acc + x)%Z Hall). lia. }
  intros Hall. specialize (Hgen 0%Z Hall). lia.
Qed.

(** X13.  The timing statistics of an ending answer: the total time is the
    clock at the end minus the start; without positive recorded times the
    fastest, slowest and average are zero; with some, the fastest and slowest
    are recorded times that bound all others, the fastest is positive, and
    the average lies between them. *)
Theorem timing_statistics_bounds env isCorrect o s q :
  questionQueue s !! currentIndex s = Some q ->
  terminates env isCorrect s = true ->
  exists st,
    sessionStats (submitAnswer env isCorrect o s) = Some st /\
    SessionStats.totalTimeMs st = (endNow o - startTime s)%Z /\
    let valid := validTimes (answerTimes s) in
    (valid = [] ->
     SessionStats.fastestAnswerMs st = 0%Z /\
     SessionStats.slowestAnswerMs st = 0%Z /\
     SessionStats.averageTimePerQuestionMs st = 0%Q) /\
    (valid <> [] ->
     SessionStats.fastestAnswerMs st ∈ valid /\
     SessionStats.slowestAnswerMs st ∈ valid /\
     Forall (fun t => (SessionStats.fastestAnswerMs st <= t
                       <= SessionStats.slowestAnswerMs st)%Z) valid /\
     (0 < SessionStats.fastestAnswerMs st)%Z /\
     (inject_Z (SessionStats.fastestAnswerMs st)
      <= SessionStats.averageTimePerQuestionMs st)%Q /\
     (SessionStats.averageTimePerQuestionMs st
      <= inject_Z (SessionStats.slowestAnswerMs st))%Q).
Proof.
  intros Hq Hterm.
  rewrite (submit_sessionStats_endGame _ _ _ _ _ Hq Hterm).
  eexists. split; [reflexivity|]. simpl. split; [done|].
  pose proof (validTimes_positive (answerTimes s)) as Hpos.
  destruct (validTimes (answerTimes s)) as [|t l] eqn:Hvalid.
  { split; [done|]. by intros []. }
  split; [done|]. intros _. simpl.
  destruct (foldl_min_spec l t) as [Hmin_in Hmin].
  destruct (foldl_max_spec l t) as [Hmax_in Hmax].
  set (lo := foldl Z.min t l) in *. set (hi := foldl Z.max t l) in *.
  assert (Forall (fun x => (lo <= x <= hi)%Z) (t :: l)) as Hboth.
  { apply Forall_forall. intros x Hx.
    rewrite Forall_forall in Hmin. rewrite Forall_forall in Hmax.
    split; [by apply Hmin | by apply Hmax]. }
  assert (0 < lo)%Z as Hlo.
  { rewrite Forall_forall in Hpos. by apply Hpos. }
  pose proof (sumZ_bounds (t :: l) lo hi Hboth) as [Hsum_lo Hsum_hi].
  set (n := length (t :: l)) in *.
  assert (0 < inject_Z (Z.of_nat n))%Q as Hn.
  { rewrite <- (Zlt_Qlt 0). subst n. simpl. lia. }
  repeat split; try done.
  - apply Qle_shift_div_l; [done|].
    rewrite <- inject_Z_mult, <- Zle_Qle. done.
  - apply Qle_shift_div_r; [done|].
    rewrite <- inject_Z_mult, <- Zle_Qle. done.
Qed.

(** ** Screens *)

(** X14.  For a reachable state the results screen is shown in the results
    phase, the answer screen in the playing phase when the mode has its
    callback (the empty state otherwise), and the answer screen in no other
    phase. *)
Theorem screen_follows_phase env c s :
  reachable env s ->
  (phase s = results -> renderScreen env c s = ResultsScreen) /\
  (phase s = playing ->
   renderScreen env c s
   = if modeSupported c then ActiveGame else EmptyState) /\
  (renderScreen env c s = ActiveGame -> phase s = playing).
Proof.
  intros Hreach.
  pose proof (reachable_items env s Hreach) as Hitems.
  assert (length (items env) <> 0) as Hlen
    by (destruct (items env); simpl; [done | lia]).
  assert (phase s = results -> is_Some (sessionStats s)) as Hstats.
  { intros Hphase.
    destruct (reachable_results_stats env s Hreach Hphase) as (st & -> & _).
    by eexists. }
  unfold renderScreen, modeSupported.
  rewrite decide_False by done.
  split; [|split].
  - intros Hphase. rewrite Hphase. rewrite decide_False by done.
    rewrite bool_decide_eq_true_2 by done.
    by rewrite bool_decide_eq_true_2 by by apply Hstats.
  - intros Hphase. rewrite Hphase. rewrite decide_False by done.
    rewrite bool_decide_eq_false_2 by done. simpl.
    by destruct (gameMode c), (hasGetCorrectOption c), (hasCheckAnswer c).
  - destruct (phase s) eqn:Hphase; [| done |].
    + by rewrite decide_True.
    + rewrite decide_False by done.
      rewrite bool_decide_eq_true_2 by done.
      by rewrite bool_decide_eq_true_2 by by apply Hstats.
Qed.

(** ** The same question again *)

Lemma wrong_on_last_entry env o s q :
  questionQueue s !! currentIndex s = Some q ->
  currentIndex s + 1 = length (questionQueue s) ->
  length (questionQueue s) < totalQuestions env * 3 ->
  (1 < lives s)%Z ->
  let s' := submitAnswer env false o s in
  phase s' = phase s /\
  currentIndex s' = currentIndex s + 1 /\
  questionQueue s' = (questionQueue s ++ [q])%list /\
  questionQueue s' !! currentIndex s' = Some q /\
  questionKey s' = questionKey s.
Proof.
  intros Hq Hlast Hcap Hlives s'. subst s'.
  assert (terminates env false s = false) as Hterm.
  { unfold terminates. bool_cases; (done || lia). }
  assert (questionQueue (submitAnswer env false o s)
          = (questionQueue s ++ [q])%list) as Hqueue.
  { rewrite (submit_questionQueue _ _ _ _ _ Hq), Hterm.
    assert (requeue env o s = (questionQueue s ++ [q])%list) as ->.
    { unfold requeue. rewrite Hq.
      destruct (Nat.ltb_spec (length (questionQueue s))
                  (totalQuestions env * 3)); [|lia].
      replace (length (questionQueue s) - (currentIndex s + 1)) with 0
        by lia.
      simpl. unfold splice_insert.
      rewrite take_ge, drop_ge by lia. done. }
    unfold ensureNextQuestionIsDifferent.
    rewrite length_app. simpl.
    destruct (Nat.leb_spec (length (questionQueue s) + 1)
                (currentIndex s + 1)); [lia|].
    rewrite lookup_app_l by lia. rewrite Hq.
    rewrite lookup_app_r by lia.
    replace (currentIndex s + 1 - length (questionQueue s)) with 0 by lia.
    simpl. rewrite decide_True by done.
    unfold findSwapIndex. rewrite drop_ge; [done|].
    rewrite length_app. simpl. lia. }
  assert (questionQueue (submitAnswer env false o s)
            !! (currentIndex s + 1) = Some q) as Hnext.
  { rewrite Hqueue, lookup_app_r by lia.
    by replace (currentIndex s + 1 - length (questionQueue s)) with 0
      by lia. }
  rewrite (submit_phase _ _ _ _ _ Hq).
  split; [done|].
  unfold questionKey.
  rewrite (submit_currentIndex _ _ _ _ _ Hq), Hterm.
  split; [done|]. split; [done|]. split; [done|].
  by rewrite Hnext, Hq.
Qed.

(** X15.  A wrong answer on the last entry of a queue below the cap, with a
    life to spare, appends the copy and makes it current: the session goes
    on with the same entry and the same question key. *)
Theorem copy_of_last_entry_keeps_key env o s q :
  questionQueue s !! currentIndex s = Some q ->
  currentIndex s + 1 = length (questionQueue s) ->
  length (questionQueue s) < totalQuestions env * 3 ->
  (1 < lives s)%Z ->
  let s' := submitAnswer env false o s in
  phase s' = phase s /\
  currentIndex s' = currentIndex s + 1 /\
  questionQueue s' = (questionQueue s ++ [q])%list /\
  questionQueue s' !! currentIndex s' = Some q /\
  questionKey s' = questionKey s.
Proof. apply wrong_on_last_entry. Qed.

(** ** The answer screen *)

Lemma handleTileClick_checking char ui :
  isChecking ui = true -> handleTileClick char ui = ui.
Proof. intros Hc. unfold handleTileClick. by rewrite Hc. Qed.

Lemma uiReachable_uiInv trim p ui : uiReachable trim p ui -> uiInv ui.
Proof.
  induction 1 as [|ev ui Hreach IH].
  - split; [constructor | done].
  - destruct ev as [char|]; simpl.
    + unfold handleTileClick.
      destruct (isChecking ui) eqn:Hc; [exact IH|].
      destruct IH as [Hnodup Hres]. rewrite Hc in Hres.
      split; simpl; [|exact Hres].
      case_bool_decide as Hin.
      * by apply NoDup_filter.
      * apply NoDup_app. split; [done|]. split; [|apply NoDup_singleton].
        intros x Hx ->%list_elem_of_singleton. done.
    + destruct (bottomBarState ui) eqn:Hbar; simpl; [|exact IH..].
      unfold handleCheck.
      destruct (hasQuestion p); simpl; [|exact IH].
      destruct IH as [Hnodup Hres].
      destruct (isTypeMode p).
      * case_decide; [by split|]. by split.
      * case_decide; [by split|]. by split.
Qed.

Lemma filter_ne_snoc (l : list string) char :
  char ∉ l -> filter (fun c => c <> char) (l ++ [char])%list = l.
Proof.
  intros Hnot. rewrite filter_app.
  rewrite filter_cons_False by (intros Hne; by apply Hne).
  rewrite filter_nil, app_nil_r.
  induction l as [|x l IH]; [done|].
  apply not_elem_of_cons in Hnot as [Hx Hl].
  rewrite filter_cons_True by done. by rewrite IH.
Qed.

(** X16.  On the answer screen no tile is ever placed twice.  While
    checking, a tile click changes nothing; before, it toggles the clicked
    tile and no other, and clicking an unplaced tile twice restores the
    state. *)
Theorem tile_clicks_toggle trim p ui char :
  uiReachable trim p ui ->
  NoDup (placedTiles ui) /\
  NoDup (placedTiles (handleTileClick char ui)) /\
  (isChecking ui = true -> handleTileClick char ui = ui) /\
  (isChecking ui = false ->
   (char ∈ placedTiles (handleTileClick char ui) <-> char ∉ placedTiles ui) /\
   (forall c, c <> char ->
      c ∈ placedTiles (handleTileClick char ui) <-> c ∈ placedTiles ui) /\
   (char ∉ placedTiles ui ->
    handleTileClick char (handleTileClick char ui) = ui)).
Proof.
  intros Hreach.
  destruct (uiReachable_uiInv trim p ui Hreach) as [Hnodup _].
  destruct (uiReachable_uiInv trim p _
              (ui_step trim p (ClickTile char) ui Hreach)) as [Hnodup' _].
  split; [done|]. split; [done|].
  split; [apply handleTileClick_checking|].
  intros Hc. unfold handleTileClick. rewrite Hc. simpl.
  split; [|split].
  - case_bool_decide as Hin.
    + rewrite list_elem_of_filter. split; [by intros [? _] | done].
    + rewrite elem_of_app, list_elem_of_singleton. tauto.
  - intros c Hne. case_bool_decide as Hin.
    + rewrite list_elem_of_filter. tauto.
    + rewrite elem_of_app, list_elem_of_singleton. tauto.
  - intros Hnot.
    rewrite (bool_decide_eq_false_2 (char ∈ placedTiles ui)) by done.
    simpl. rewrite ?Hc. simpl.
    rewrite bool_decide_eq_true_2
      by (rewrite elem_of_app, list_elem_of_singleton; tauto).
    rewrite filter_ne_snoc by done. destruct ui; simpl in *. by subst.
Qed.

Lemma foldl_handleTileClick_checking clicks ui :
  isChecking ui = true ->
  foldl (fun u c => handleTileClick c u) ui clicks = ui.
Proof.
  intros Hc. induction clicks as [|c clicks IH]; simpl; [done|].
  by rewrite handleTileClick_checking.
Qed.

Lemma handleCheck_pick trim p ui :
  hasQuestion p = true -> isTypeMode p = false -> placedTiles ui <> [] ->
  let isCorrect :=
    bool_decide (length (placedTiles ui) = 1)
    && bool_decide (placedTiles ui !! 0 = Some (correctAnswer p)) in
  handleCheck trim p ui =
    {| placedTiles := placedTiles ui;
       bottomBarState := if isCorrect then barCorrect else barWrong;
       isChecking := true;
       isCelebrating := if isCorrect then true else isCelebrating ui;
       checkedResult :=
         Some {| selectedOption := default "" (placedTiles ui !! 0);
                 resultIsCorrect := isCorrect |} |}.
Proof.
  intros Hq Hmode Hne. unfold handleCheck. rewrite Hq, Hmode. simpl.
  case_decide as Hlen; [|done].
  by apply nil_length_inv in Hlen.
Qed.

(** X17.  In Pick mode the action button with nothing placed neither
    checks nor submits.  With tiles placed it checks, tile clicks after the
    check change nothing, and the next press submits the result fixed at the
    check: correct exactly when the correct option alone was placed. *)
Theorem submitted_result_is_the_checked_one trim p ui clicks :
  uiReachable trim p ui ->
  hasQuestion p = true -> isTypeMode p = false ->
  bottomBarState ui = barCheck ->
  (placedTiles ui = [] -> uiStep trim p ClickAction ui = (ui, None)) /\
  (placedTiles ui <> [] ->
   let checked := (uiStep trim p ClickAction ui).1 in
   let later := foldl (fun u c => handleTileClick c u) checked clicks in
   later = checked /\
   exists r,
     uiStep trim p ClickAction later = (later, Some r) /\
     (resultIsCorrect r = true <-> placedTiles ui = [correctAnswer p]) /\
     Some (selectedOption r) = head (placedTiles ui)).
Proof.
  intros Hreach Hq Hmode Hbar. split.
  - intros Hempty. unfold uiStep. rewrite Hbar. unfold handleCheck.
    rewrite Hq, Hmode, Hempty. done.
  - intros Hne checked later.
    assert (checked = handleCheck trim p ui) as Hchecked
      by (subst checked; unfold uiStep; by rewrite Hbar).
    rewrite (handleCheck_pick trim p ui Hq Hmode Hne) in Hchecked.
    assert (later = checked) as Hlater.
    { subst later. apply foldl_handleTileClick_checking.
      by rewrite Hchecked. }
    split; [done|]. rewrite Hlater, Hchecked.
    exists {| selectedOption := default "" (placedTiles ui !! 0);
              resultIsCorrect :=
                bool_decide (length (placedTiles ui) = 1)
                && bool_decide
                     (placedTiles ui !! 0 = Some (correctAnswer p)) |}.
    split.
    + unfold uiStep, handleContinue. simpl.
      destruct (_ && _); reflexivity.
    + simpl. split.
      * rewrite andb_true_iff, !bool_decide_eq_true.
        destruct (placedTiles ui) as [|t [|t' l]]; simpl; try done.
        -- split; [by intros [_ [= ->]] | by intros [= ->]].
        -- split; [by intros [[=] _] | done].
      * by destruct (placedTiles ui).
Qed.

(** X18.  The kept result outlives a render with an unchanged question
    key: after the wrong answer on the last queue entry of X15, the answer
    screen is not reset and the action button submits the same result
    again. *)
Theorem feedback_survives_an_unchanged_key trim p ui r env o s q :
  uiReachable trim p ui ->
  checkedResult ui = Some r ->
  questionQueue s !! currentIndex s = Some q ->
  currentIndex s + 1 = length (questionQueue s) ->
  length (questionQueue s) < totalQuestions env * 3 ->
  (1 < lives s)%Z ->
  let s' := submitAnswer env false o s in
  uiStep trim p ClickAction ui = (ui, Some r) /\
  afterRender (questionKey s) (questionKey s') ui = ui /\
  uiStep trim p ClickAction (afterRender (questionKey s) (questionKey s') ui)
  = (ui, Some r).
Proof.
  intros Hreach Hr Hq Hlast Hcap Hlives s'.
  destruct (uiReachable_uiInv trim p ui Hreach) as [_ Hres].
  rewrite Hr in Hres. destruct Hres as [_ Hbar].
  assert (uiStep trim p ClickAction ui = (ui, Some r)) as Hstep.
  { unfold uiStep, handleContinue. rewrite Hbar, Hr.
    by destruct (resultIsCorrect r). }
  assert (questionKey s' = questionKey s) as Hkey
    by apply (wrong_on_last_entry env o s q Hq Hlast Hcap Hlives).
  unfold afterRender. rewrite Hkey, decide_True by done. done.
Qed.

(** An answer that calls [endGame] leaves index and queue alone, and with
    them the question key: the answer screen is not reset, ignores the
    tiles, and its action button hands the kept result in again.  This is
    the result a session holds once an answer has called [endGame]. *)
Lemma ending_answer_is_handed_in_again trim p ui r env isCorrect o s q :
  uiReachable trim p ui ->
  checkedResult ui = Some r ->
  questionQueue s !! currentIndex s = Some q ->
  terminates env isCorrect s = true ->
  let s' := submitAnswer env isCorrect o s in
  currentIndex s' = currentIndex s /\
  questionQueue s' = questionQueue s /\
  questionKey s' = questionKey s /\
  afterRender (questionKey s) (questionKey s') ui = ui /\
  (forall char, uiStep trim p (ClickTile char) ui = (ui, None)) /\
  uiStep trim p ClickAction ui = (ui, Some r).
Proof.
  intros Hreach Hr Hq Hterm s'. subst s'.
  destruct (uiReachable_uiInv trim p ui Hreach) as [_ Hres].
  rewrite Hr in Hres. destruct Hres as [Hchecking Hbar].
  pose proof (submit_currentIndex env isCorrect o s q Hq) as Hi.
  pose proof (submit_questionQueue env isCorrect o s q Hq) as Hqq.
  rewrite Hterm in Hi, Hqq.
  assert (questionKey (submitAnswer env isCorrect o s) = questionKey s)
    as Hkey by (unfold questionKey; by rewrite Hi, Hqq).
  split; [done|]. split; [done|]. split; [done|]. split; [|split].
  - unfold afterRender. by rewrite Hkey, decide_True.
  - intros char. unfold uiStep, handleTileClick. by rewrite Hchecking.
  - unfold uiStep, handleContinue. rewrite Hbar, Hr.
    by destruct (resultIsCorrect r).
Qed.

(** ** The threshold as a function of the target *)

(** X19.  The regeneration threshold does not decrease when the target
    grows; it is 5 exactly up to a target of 50 and 20 exactly from 191
    on. *)
Theorem regen_threshold_is_monotone n m :
  n <= m ->
  calculateRegenThreshold n <= calculateRegenThreshold m /\
  (calculateRegenThreshold n = 5 <-> n <= 50) /\
  (calculateRegenThreshold n = 20 <-> 191 <= n).
Proof.
  intros Hnm. unfold calculateRegenThreshold.
  pose proof (ceilTenth_spec n) as Hn.
  pose proof (ceilTenth_spec m) as Hm.
  split; [|split]; lia.
Qed.

Lemma regen_threshold_is_monotone_witness :
  calculateRegenThreshold 60 <= calculateRegenThreshold 100.
Proof.
  apply (proj1 (regen_threshold_is_monotone 60 100 ltac:(lia))).
Defined.

(** ** The properties on the sample sessions *)

Lemma uiReachable_uiPlacedB : uiReachable sameText pickProps uiPlacedB.
Proof. apply ui_step, ui_reset. Qed.

Lemma uiReachable_uiCheckedB : uiReachable sameText pickProps uiCheckedB.
Proof. apply ui_step, uiReachable_uiPlacedB. Qed.

Lemma initial_queue_is_rearranged_cross_product_witness :
  q_index <$> generateQuestionQueue noShuffle itemsABC 3 !! 4 = Some 4.
Proof.
  destruct (generateQuestionQueue noShuffle itemsABC 3 !! 4) as [e|] eqn:He;
    [|vm_compute in He; discriminate He].
  simpl. f_equal.
  apply (proj2 (proj2 (initial_queue_is_rearranged_cross_product
                         noShuffle itemsABC 3)) 4 e He).
Defined.

Lemma streaks_are_ordered_witness :
  currentStreak sAB3 <= bestStreak sAB3 /\
  bestStreak sAB3 <= correctAnswers sAB3.
Proof.
  destruct (streaks_are_ordered envAB sAB3 reachable_sAB3) as (H1 & H2 & _).
  exact (conj H1 H2).
Defined.

Lemma recorded_times_are_positive_witness :
  validTimes (answerTimes sAB3) = answerTimes sAB3.
Proof.
  exact (proj1 (proj2 (recorded_times_are_positive envAB sAB3
                         reachable_sAB3))).
Defined.

Lemma queue_entries_are_items_witness : q_item entryB ∈ items envAB.
Proof.
  apply (queue_entries_are_items envAB sAB2 entryB reachable_sAB2).
  apply (list_elem_of_lookup_2 _ 2). vm_compute. reflexivity.
Defined.

Lemma tallies_add_up_witness :
  tallyCorrect (characterStats sAB3) = correctAnswers sAB3 /\
  tallyWrong (characterStats sAB3) = wrongAnswers sAB3.
Proof.
  destruct (tallies_add_up envAB sAB3 reachable_sAB3) as (H1 & H2 & _).
  exact (conj H1 H2).
Defined.

Lemma answers_only_move_forward_witness :
  currentIndex sAB1 <= currentIndex sAB2 <= currentIndex sAB1 + 1.
Proof.
  apply (answers_only_move_forward envAB false (orc 1700 1) sAB1).
  intros _ _. vm_compute. lia.
Defined.

Lemma requeued_copy_is_ahead_witness :
  exists j, currentIndex sAB1 < j /\ questionQueue sAB2 !! j = Some entryB.
Proof.
  apply (requeued_copy_is_ahead envAB (orc 1700 1) sAB1 entryB).
  - vm_compute. reflexivity.
  - intros Hrem. vm_compute in Hrem. lia.
  - vm_compute. lia.
  - vm_compute. reflexivity.
Defined.

Lemma session_length_is_bounded_witness :
  correctAnswers sAB3 + wrongAnswers sAB3
  = correctAnswers sAB2 + wrongAnswers sAB2 + 1 /\
  currentIndex sAB2 = correctAnswers sAB2 + wrongAnswers sAB2.
Proof.
  destruct (session_length_is_bounded envAB sAB2) as (Hstep & Hidx & _).
  - vm_compute. discriminate.
  - vm_compute. lia.
  - apply session_sAB2.
  - split; [|exact Hidx].
    apply (Hstep true (orc 1900 1) entryB). vm_compute. reflexivity.
Defined.

Lemma result_life_accounting_witness :
  exists st,
    sessionStats sAB3 = Some st /\
    SessionStats.livesLost st = Z.of_nat (SessionStats.wrongAnswers st) /\
    (0 <= SessionStats.livesRemaining st)%Z.
Proof.
  destruct (result_life_accounting envAB sAB2 true (orc 1900 1) entryB)
    as (st & Hst & _ & Hlost & _ & _ & Hfirst).
  - apply reachable_sAB2.
  - vm_compute. reflexivity.
  - vm_compute. reflexivity.
  - exists st. split; [exact Hst|]. split; [exact Hlost|].
    apply Hfirst.
    + vm_compute. discriminate.
    + vm_compute. lia.
    + apply session_sAB2.
Defined.

Lemma result_completion_flag_witness :
  exists st,
    sessionStats sAB3 = Some st /\
    (SessionStats.completed st = true <->
     totalQuestions envAB <= SessionStats.correctAnswers st).
Proof.
  destruct (result_completion_flag envAB None sAB2 true (orc 1900 1) entryB)
    as (st & Hst & Hflag & _).
  - vm_compute. discriminate.
  - vm_compute. lia.
  - apply session_sAB2.
  - vm_compute. reflexivity.
  - intros kept Hkept. discriminate Hkept.
  - vm_compute. reflexivity.
  - by exists st.
Defined.

Lemma timing_statistics_bounds_witness :
  exists st,
    sessionStats sAB3 = Some st /\
    SessionStats.totalTimeMs st = 900%Z.
Proof.
  destruct (timing_statistics_bounds envAB true (orc 1900 1) sAB2 entryB)
    as (st & Hst & Htotal & _).
  - vm_compute. reflexivity.
  - vm_compute. reflexivity.
  - exists st. split; [exact Hst|]. rewrite Htotal. vm_compute. reflexivity.
Defined.

Lemma screen_follows_phase_witness :
  renderScreen envAB pickCollaborators sABend = ResultsScreen.
Proof.
  apply (screen_follows_phase envAB pickCollaborators sABend
           reachable_sABend).
  vm_compute. reflexivity.
Defined.

Lemma copy_of_last_entry_keeps_key_witness :
  questionKey sAB2 = questionKey sAB1.
Proof.
  apply (copy_of_last_entry_keeps_key envAB (orc 1700 1) sAB1 entryB).
  - vm_compute. reflexivity.
  - vm_compute. reflexivity.
  - vm_compute. lia.
  - vm_compute. reflexivity.
Defined.

Lemma tile_clicks_toggle_witness :
  handleTileClick "b" (handleTileClick "b" resetUi) = resetUi.
Proof.
  apply (tile_clicks_toggle sameText pickProps resetUi "b"
           (ui_reset sameText pickProps)).
  - reflexivity.
  - vm_compute. intros Hin. inversion Hin.
Defined.

Lemma submitted_result_is_the_checked_one_witness :
  exists r,
    uiStep sameText pickProps ClickAction
      (foldl (fun u c => handleTileClick c u) uiCheckedB ["a"; "b"])
    = (foldl (fun u c => handleTileClick c u) uiCheckedB ["a"; "b"], Some r)
    /\ (resultIsCorrect r = true <-> placedTiles uiPlacedB = ["a"]).
Proof.
  destruct (submitted_result_is_the_checked_one sameText pickProps uiPlacedB
              ["a"; "b"] uiReachable_uiPlacedB eq_refl eq_refl eq_refl)
    as [_ Hchecked].
  destruct Hchecked as (_ & r & Hstep & Hcorrect & _).
  - vm_compute. discriminate.
  - exists r. split; [exact Hstep | exact Hcorrect].
Defined.

Lemma feedback_survives_an_unchanged_key_witness :
  uiStep sameText pickProps ClickAction
    (afterRender (questionKey sAB1) (questionKey sAB2) uiCheckedB)
  = (uiCheckedB, Some {| selectedOption := "b"; resultIsCorrect := false |}).
Proof.
  apply (feedback_survives_an_unchanged_key sameText pickProps uiCheckedB
           {| selectedOption := "b"; resultIsCorrect := false |}
           envAB (orc 1700 1) sAB1 entryB uiReachable_uiCheckedB).
  - vm_compute. reflexivity.
  - vm_compute. reflexivity.
  - vm_compute. reflexivity.
  - vm_compute. lia.
  - vm_compute. reflexivity.
Defined.
